(** * The library store of qna-pdf-pal (src/qna-pdf-pal/src/store/libraryStore.ts)

    A shallow embedding of the zustand store that caches libraries,
    documents and conversations of the remote backend, and of the
    [partialize] / [migrate] options of its [persist] middleware.

    - TypeScript interfaces are records; optional fields are [option]s.
    - [fetch] talks to a backend that is a parameter of the development:
      an arbitrary state machine answering requests.  Every request that
      is issued is appended to a log, so that "issues no remote call" is
      a statement about the model.
    - An [async] store action is a computation [M A] over the world
      (store, backend, log) that either returns or throws; what was
      committed with [set] before a throw stays committed.
    - Actions are run one at a time: the interleavings of several pending
      actions are not part of this model. *)

From Stdlib Require Import String Ascii List ZArith Bool.
From stdpp Require Import gmap strings list.

Import ListNotations.
Local Open Scope string_scope.
Local Open Scope list_scope.

(** ** Data model (libraryStore.ts, lines 6-47) *)

(** [new Date(x)]: the date built from the wire string [x]. *)
Inductive Date : Type :=
  | NewDate (src : string).

Record DocumentChunk : Type := mkChunk {
  chunk_id : string;
  chunk_content : string;
  pageNumber : Z;
  chunkIndex : Z
}.

(** [file?: File] and [embeddings?: number[][]] are browser and floating
    point payloads that no store action reads; they are left out. *)
Record PDFDocument : Type := mkDocument {
  doc_id : string;
  doc_name : string;
  uploadDate : Date;
  doc_tags : option string;
  chunks : list DocumentChunk
}.

Record Library : Type := mkLibrary {
  lib_id : string;
  lib_name : string;
  description : option string;
  documents : list PDFDocument;
  lib_createdAt : Date;
  lib_tags : option (list string)
}.

Inductive Role : Type := user | assistant.

Record ChatMessage : Type := mkMessage {
  msg_id : string;
  msg_content : string;
  role : Role;
  timestamp : Date;
  sources : option (list string)
}.

Record Conversation : Type := mkConversation {
  conv_id : string;
  libraryId : string;
  title : string;
  messages : list ChatMessage;
  createdAt : Date;
  updatedAt : Date
}.

(** The data part of [interface LibraryStore]. *)
Record Store : Type := mkStore {
  libraries : list Library;
  currentLibrary : option Library;
  conversations : list Conversation;
  currentConversation : option Conversation
}.

(** The initial state of [create] (lines 83-86). *)
Definition initialStore : Store :=
  {| libraries := []; currentLibrary := None;
     conversations := []; currentConversation := None |}.

(** ** Wire shapes

    The objects the backend answers with (typed [any] in the source),
    with the snake-case keys the store reads from them. *)

Record RawDocument : Type := mkRawDocument {
  rd_id : string;
  rd_name : string;
  upload_date : string;
  rd_tags : option string;
  rd_chunks : option (list DocumentChunk)
}.

Record RawLibrary : Type := mkRawLibrary {
  rl_id : string;
  rl_name : string;
  rl_description : option string;
  rl_created_at : string;
  rl_tags : option string
}.

Record RawConversation : Type := mkRawConversation {
  rc_id : string;
  library_id : string;
  rc_title : string;
  rc_messages : list ChatMessage;
  created_at : string;
  updated_at : string
}.

(** ** Requests and responses *)

Inductive Request : Type :=
  | GET_libraries
  | GET_documents (libId : string)
  | POST_library (name : string) (descr tags : option string)
  | DELETE_library (id : string)
  | POST_conversation (libId ttl : string)
  | POST_message (convId : string) (message : ChatMessage)
  | GET_conversations (libId : string)
  | GET_conversation (convId : string)
  | PATCH_conversation (convId newTitle : string)
  | DELETE_conversation (convId : string).

(** The JSON body of a response, by shape. *)
Inductive Body : Type :=
  | JLibraries (libs : list RawLibrary)
  | JDocuments (docs : list RawDocument)
  | JConversations (convs : list RawConversation)
  | JConversation (conv : RawConversation)
  | JOther.

Record Response : Type := mkResponse {
  ok : bool;
  body : Body
}.

(** The promise of [fetch] either rejects (the backend was not reached)
    or resolves to a response, whatever its status. *)
Inductive Reply : Type :=
  | Rejected
  | Resolved (res : Response).

Inductive Exception : Type :=
  | Error (msg : string)   (* [throw new Error(msg)] *)
  | FetchFailed            (* the rejection of [fetch] *)
  | TypeError.             (* a body of the wrong shape *)

(** ** String helpers of the normalisation: [split(",")] and [trim()] *)

Definition comma : ascii := ","%char.

(** [s.split(",")]: the pieces between commas; never empty. *)
Fixpoint split_comma (s : string) : list string :=
  match s with
  | EmptyString => [EmptyString]
  | String c rest =>
      if Ascii.eqb c comma then EmptyString :: split_comma rest
      else match split_comma rest with
           | [] => [String c EmptyString]
           | piece :: pieces => String c piece :: pieces
           end
  end.

(** White space of [trim()] within ASCII: TAB, LF, VT, FF, CR, space. *)
Definition is_space (c : ascii) : bool :=
  let n := nat_of_ascii c in
  ((9 <=? n)%nat && (n <=? 13)%nat) || (n =? 32)%nat.

Fixpoint trim_start (s : string) : string :=
  match s with
  | EmptyString => EmptyString
  | String c rest => if is_space c then trim_start rest else s
  end.

Fixpoint trim_end (s : string) : string :=
  match s with
  | EmptyString => EmptyString
  | String c rest =>
      match trim_end rest with
      | EmptyString => if is_space c then EmptyString else String c EmptyString
      | kept => String c kept
      end
  end.

Definition trim (s : string) : string := trim_end (trim_start s).

(** [x ? a : b] on a string: the empty string is falsy. *)
Definition truthy (s : string) : bool :=
  match s with EmptyString => false | _ => true end.

(** ** Normalisation at the ingestion boundary *)

(** Lines 105-110: [{...doc, uploadDate: new Date(doc.upload_date),
    tags: doc.tags || "", chunks: doc.chunks || []}]. *)
Definition normDocument (doc : RawDocument) : PDFDocument :=
  {| doc_id := rd_id doc;
     doc_name := rd_name doc;
     uploadDate := NewDate (upload_date doc);
     doc_tags := Some (match rd_tags doc with
                       | Some t => if truthy t then t else ""
                       | None => ""
                       end);
     chunks := default [] (rd_chunks doc) |}.

(** Lines 103-115: [{...lib, documents: docs.map(..), createdAt: ..,
    tags: lib.tags ? lib.tags.split(",").map(trim) : []}]. *)
Definition normLibrary (lib : RawLibrary) (docs : list RawDocument) : Library :=
  {| lib_id := rl_id lib;
     lib_name := rl_name lib;
     description := rl_description lib;
     documents := List.map normDocument docs;
     lib_createdAt := NewDate (rl_created_at lib);
     lib_tags := Some (match rl_tags lib with
                       | Some t => if truthy t
                                   then List.map trim (split_comma t)
                                   else []
                       | None => []
                       end) |}.

(** Lines 269-274 and 288-290: [libraryId], [createdAt] and [updatedAt]
    are set from the snake-case keys. *)
Definition normConversation (conv : RawConversation) : Conversation :=
  {| conv_id := rc_id conv;
     libraryId := library_id conv;
     title := rc_title conv;
     messages := rc_messages conv;
     createdAt := NewDate (created_at conv);
     updatedAt := NewDate (updated_at conv) |}.

(** [{...c, ...conv}] (line 294): every key of [Conversation] is
    required, so the later spread supplies each of them. *)
Definition spreadConversation (c conv : Conversation) : Conversation :=
  {| conv_id := conv_id conv;
     libraryId := libraryId conv;
     title := title conv;
     messages := messages conv;
     createdAt := createdAt conv;
     updatedAt := updatedAt conv |}.

(** ** The world an action runs in, and the action monad *)

Record World (B : Type) : Type := mkWorld {
  store : Store;
  backend : B;
  calls : list Request
}.
Arguments mkWorld {B} _ _ _.
Arguments store {B} _.
Arguments backend {B} _.
Arguments calls {B} _.

Inductive Outcome (B A : Type) : Type :=
  | Returned (a : A) (w : World B)
  | Thrown (e : Exception) (w : World B).
Arguments Returned {B A} _ _.
Arguments Thrown {B A} _ _.

Definition world_of {B A} (o : Outcome B A) : World B :=
  match o with
  | Returned _ w => w
  | Thrown _ w => w
  end.

Definition M (B A : Type) : Type := World B -> Outcome B A.

Definition ret {B A} (a : A) : M B A := fun w => Returned a w.

Definition throw {B A} (e : Exception) : M B A := fun w => Thrown e w.

Definition bind {B A C} (m : M B A) (k : A -> M B C) : M B C :=
  fun w =>
    match m w with
    | Returned a w' => k a w'
    | Thrown e w' => Thrown e w'
    end.

Notation "x <- m ;; k" := (bind m (fun x => k))
  (at level 100, m at next level, right associativity).
Notation "m ;;; k" := (bind m (fun _ => k))
  (at level 100, right associativity).

(** zustand's [get()] and [set(fn)]. *)
Definition get {B} : M B Store := fun w => Returned (store w) w.

Definition set {B} (f : Store -> Store) : M B unit :=
  fun w => Returned tt (mkWorld (f (store w)) (backend w) (calls w)).

(** [Promise.all(xs.map(f))], taken in list order; it rejects as soon as
    one of the promises does. *)
Fixpoint mapM {B X Y} (f : X -> M B Y) (xs : list X) : M B (list Y) :=
  match xs with
  | [] => ret []
  | x :: rest =>
      y <- f x ;;
      ys <- mapM f rest ;;
      ret (y :: ys)
  end.

(** [await res.json()] read at the shape the caller goes on to use. *)
Definition json_libraries {B} (res : Response) : M B (list RawLibrary) :=
  match body res with JLibraries libs => ret libs | _ => throw TypeError end.

Definition json_documents {B} (res : Response) : M B (list RawDocument) :=
  match body res with JDocuments docs => ret docs | _ => throw TypeError end.

Definition json_conversations {B} (res : Response) : M B (list RawConversation) :=
  match body res with JConversations convs => ret convs | _ => throw TypeError end.

Definition json_conversation {B} (res : Response) : M B RawConversation :=
  match body res with JConversation conv => ret conv | _ => throw TypeError end.

(** ** The store actions (libraryStore.ts, lines 88-299) *)

Section Actions.

Context {B : Type}.

(** The backend: a request in a backend state gives a reply and the
    next backend state. *)
Variable remote : B -> Request -> Reply * B.

(** [await fetch(url, init)]. *)
Definition fetch (req : Request) : M B Response :=
  fun w =>
    let (reply, b') := remote (backend w) req in
    let w' := mkWorld (store w) b' (calls w ++ [req]) in
    match reply with
    | Resolved res => Returned res w'
    | Rejected => Thrown FetchFailed w'
    end.

(** The loop of lines 262-277. *)
Fixpoint fetchAllConversations_loop
    (libs : list Library) (allConvs : list Conversation)
    : M B (list Conversation) :=
  match libs with
  | [] => ret allConvs
  | lib :: rest =>
      res <- fetch (GET_conversations (lib_id lib)) ;;
      if ok res then
        convs <- json_conversations res ;;
        fetchAllConversations_loop rest
          (allConvs ++ List.map normConversation convs)
      else fetchAllConversations_loop rest allConvs
  end.

Definition fetchAllConversations : M B unit :=
  state <- get ;;
  allConvs <- fetchAllConversations_loop (libraries state) [] ;;
  set (fun s => {| libraries := libraries s;
                   currentLibrary := currentLibrary s;
                   conversations := allConvs;
                   currentConversation := currentConversation s |}).

(** Lines 118-127, the updater passed to [set]. *)
Definition selectLibrary (fetched : list Library) (state : Store) : Store :=
  let currentLibrary :=
    match currentLibrary state with
    | None =>
        if (0 <? length fetched)%nat then fetched !! 0%nat else None
    | Some cur =>
        if negb (existsb (fun lib => String.eqb (lib_id lib) (lib_id cur))
                         fetched)
        then (if (0 <? length fetched)%nat then fetched !! 0%nat else None)
        else Some cur
    end in
  {| libraries := fetched;
     currentLibrary := currentLibrary;
     conversations := conversations state;
     currentConversation := currentConversation state |}.

Definition fetchLibraries : M B unit :=
  res <- fetch GET_libraries ;;
  libs <- json_libraries res ;;
  fetched <- mapM (fun lib =>
                     docRes <- fetch (GET_documents (rl_id lib)) ;;
                     docs <- json_documents docRes ;;
                     ret (normLibrary lib docs)) libs ;;
  set (selectLibrary fetched) ;;;
  fetchAllConversations.

Definition initialize : M B unit :=
  fetchLibraries ;;;
  fetchAllConversations.

Definition createLibrary (name : string) (descr tags : option string)
    : M B unit :=
  res <- fetch (POST_library name descr tags) ;;
  if negb (ok res) then throw (Error "Failed to create library")
  else fetchLibraries.

Definition deleteLibrary (id : string) : M B unit :=
  fetch (DELETE_library id) ;;;
  fetchLibraries.

Definition setCurrentLibrary (library : option Library) : M B unit :=
  set (fun s => {| libraries := libraries s;
                   currentLibrary := library;
                   conversations := conversations s;
                   currentConversation := currentConversation s |}).

Definition addDocument (libraryId : string) (document : PDFDocument)
    : M B unit :=
  set (fun state =>
    {| libraries :=
         List.map (fun lib =>
                     if String.eqb (lib_id lib) libraryId
                     then {| lib_id := lib_id lib;
                             lib_name := lib_name lib;
                             description := description lib;
                             documents := documents lib ++ [document];
                             lib_createdAt := lib_createdAt lib;
                             lib_tags := lib_tags lib |}
                     else lib)
                  (libraries state);
       currentLibrary := currentLibrary state;
       conversations := conversations state;
       currentConversation := currentConversation state |}).

Definition removeDocument (libraryId documentId : string) : M B unit :=
  set (fun state =>
    {| libraries :=
         List.map (fun lib =>
                     if String.eqb (lib_id lib) libraryId
                     then {| lib_id := lib_id lib;
                             lib_name := lib_name lib;
                             description := description lib;
                             documents :=
                               List.filter
                                 (fun doc =>
                                    negb (String.eqb (doc_id doc) documentId))
                                 (documents lib);
                             lib_createdAt := lib_createdAt lib;
                             lib_tags := lib_tags lib |}
                     else lib)
                  (libraries state);
       currentLibrary := currentLibrary state;
       conversations := conversations state;
       currentConversation := currentConversation state |}).

(** [conversations.find(..)] gives [undefined] when nothing matches:
    the result is an [option]. *)
Definition createConversation (libId ttl : string)
    : M B (option Conversation) :=
  res <- fetch (POST_conversation libId ttl) ;;
  if negb (ok res) then throw (Error "Failed to create conversation")
  else
    fetchAllConversations ;;;
    state <- get ;;
    ret (List.find (fun c => String.eqb (libraryId c) libId
                             && String.eqb (title c) ttl)
                   (conversations state)).

Definition fetchConversation (conversationId : string) : M B Conversation :=
  res <- fetch (GET_conversation conversationId) ;;
  if negb (ok res) then throw (Error "Failed to fetch conversation")
  else
    raw <- json_conversation res ;;
    let conv := normConversation raw in
    set (fun state =>
      {| libraries := libraries state;
         currentLibrary := currentLibrary state;
         conversations :=
           List.map (fun c => if String.eqb (conv_id c) conversationId
                              then spreadConversation c conv else c)
                    (conversations state);
         currentConversation := Some conv |}) ;;;
    ret conv.

Definition addMessage (conversationId : string) (message : ChatMessage)
    : M B unit :=
  res <- fetch (POST_message conversationId message) ;;
  if negb (ok res) then throw (Error "Failed to save message")
  else
    fetchConversation conversationId ;;;
    ret tt.

Definition setCurrentConversation (conversation : option Conversation)
    : M B unit :=
  match conversation with
  | Some conv =>
      state <- get ;;
      match List.find (fun lib => String.eqb (lib_id lib) (libraryId conv))
                      (libraries state) with
      | Some library => setCurrentLibrary (Some library)
      | None => ret tt
      end
  | None => ret tt
  end ;;;
  set (fun s => {| libraries := libraries s;
                   currentLibrary := currentLibrary s;
                   conversations := conversations s;
                   currentConversation := conversation |}).

Definition deleteConversation (conversationId : string) : M B unit :=
  set (fun state =>
    {| libraries := libraries state;
       currentLibrary := currentLibrary state;
       conversations :=
         List.filter (fun conv => negb (String.eqb (conv_id conv) conversationId))
                     (conversations state);
       currentConversation :=
         match currentConversation state with
         | Some cur => if String.eqb (conv_id cur) conversationId
                       then None else Some cur
         | None => None
         end |}) ;;;
  fetch (DELETE_conversation conversationId) ;;;
  fetchAllConversations.

Definition updateConversationTitle (conversationId newTitle : string)
    : M B unit :=
  res <- fetch (PATCH_conversation conversationId newTitle) ;;
  if negb (ok res) then throw (Error "Failed to update conversation title")
  else fetchAllConversations.

(** *** Per-library outcomes of a conversation refresh

    What the sub-fetch for one library reports: failure (a response
    that is not [ok]), or success with the conversations it lists. *)

Inductive SubFetch : Type :=
  | Fails
  | Succeeds (convs : list RawConversation).

Definition reports (r : Reply) (o : SubFetch) : Prop :=
  match o with
  | Fails => ∃ bd, r = Resolved {| ok := false; body := bd |}
  | Succeeds convs => r = Resolved {| ok := true; body := JConversations convs |}
  end.

Definition contribution (o : SubFetch) : list Conversation :=
  match o with
  | Fails => []
  | Succeeds convs => List.map normConversation convs
  end.

(** [answers b libs outs b']: asked for the conversations of [libs] one
    after the other from state [b], the backend reports [outs] and ends
    in state [b']. *)
Inductive answers : B -> list Library -> list SubFetch -> B -> Prop :=
  | answers_nil b : answers b [] [] b
  | answers_cons b lib libs r b1 o outs b' :
      remote b (GET_conversations (lib_id lib)) = (r, b1) ->
      reports r o ->
      answers b1 libs outs b' ->
      answers b (lib :: libs) (o :: outs) b'.

(** The predicate of [find] in [createConversation]. *)
Definition matchesConversation (libId ttl : string) (c : Conversation) : bool :=
  String.eqb (libraryId c) libId && String.eqb (title c) ttl.

(** The identities of the documents of the libraries called [libId]. *)
Definition documentIds (libId : string) (s : Store) : gset string :=
  list_to_set
    (List.concat
       (List.map (fun lib => List.map doc_id (documents lib))
                 (List.filter (fun lib => String.eqb (lib_id lib) libId)
                              (libraries s)))).

(** [keeps proj m]: whatever its outcome, [m] leaves the part [proj] of
    the store as it found it. *)
Definition keeps {X A} (proj : Store -> X) (m : M B A) : Prop :=
  ∀ w, proj (store (world_of (m w))) = proj (store w).

(** The world once [req] has been answered. *)
Definition answered (w : World B) (req : Request) : World B :=
  {| store := store w;
     backend := snd (remote (backend w) req);
     calls := calls w ++ [req] |}.

End Actions.

(** ** Persistence options (libraryStore.ts, lines 301-319) *)

(** A value stored under a key of the persisted record. *)
Inductive PValue : Type :=
  | PLibraries (libs : list Library)
  | PConversations (convs : list Conversation)
  | PLibrary (lib : option Library)
  | PConversation (conv : option Conversation).

(** [partialize]: the object literal with the two keys. *)
Definition partialize (state : Store) : gmap string PValue :=
  <["libraries" := PLibraries (libraries state)]>
    (<["conversations" := PConversations (conversations state)]> ∅).

(** *** The regular expression of [migrate]

    [/^[0-9a-f]{8}-[0-9a-f]{4}-[0-9a-f]{4}-[0-9a-f]{4}-[0-9a-f]{12}$/i]
    as its sequence of terms between the two anchors: a character class
    repeated an exact number of times, or a literal character. *)

Inductive Term : Type :=
  | Class (ranges : list (ascii * ascii)) (count : nat)
  | Lit (c : ascii).

Record RegExp : Type := mkRegExp {
  terms : list Term;
  ignoreCase : bool
}.

Definition hexClass : list (ascii * ascii) :=
  [("0"%char, "9"%char); ("a"%char, "f"%char)].

Definition uuidRegex : RegExp :=
  {| terms := [Class hexClass 8; Lit "-"%char;
               Class hexClass 4; Lit "-"%char;
               Class hexClass 4; Lit "-"%char;
               Class hexClass 4; Lit "-"%char;
               Class hexClass 12];
     ignoreCase := true |}.

(** Canonicalisation under [/i] (no [u] flag): the upper-case letter;
    only the ASCII letters have one below code 128. *)
Definition canonicalize (c : ascii) : ascii :=
  let n := nat_of_ascii c in
  if ((97 <=? n)%nat && (n <=? 122)%nat) then ascii_of_nat (n - 32) else c.

Definition in_range (c : ascii) (r : ascii * ascii) : bool :=
  ((nat_of_ascii (fst r) <=? nat_of_ascii c)%nat
   && (nat_of_ascii c <=? nat_of_ascii (snd r))%nat).

(** All characters of the range [lo..hi]. *)
Definition range_chars (r : ascii * ascii) : list ascii :=
  List.map (fun k => ascii_of_nat (nat_of_ascii (fst r) + k))
           (seq 0 (S (nat_of_ascii (snd r)) - nat_of_ascii (fst r))).

(** A character matches a class when it is in one of the ranges; under
    [/i], when its canonical form is that of a character of a range. *)
Definition class_matches (i : bool) (ranges : list (ascii * ascii)) (c : ascii)
    : bool :=
  if i then
    existsb (fun r => existsb (fun ch => Ascii.eqb (canonicalize ch)
                                                    (canonicalize c))
                              (range_chars r))
            ranges
  else existsb (in_range c) ranges.

Definition lit_matches (i : bool) (l c : ascii) : bool :=
  if i then Ascii.eqb (canonicalize l) (canonicalize c) else Ascii.eqb l c.

(** Consume exactly [count] characters of the class. *)
Fixpoint match_class (i : bool) (ranges : list (ascii * ascii)) (count : nat)
    (s : string) : option string :=
  match count with
  | O => Some s
  | S n =>
      match s with
      | String c rest =>
          if class_matches i ranges c then match_class i ranges n rest
          else None
      | EmptyString => None
      end
  end.

(** The terms in sequence; [$] asks for the end of the input. *)
Fixpoint match_terms (i : bool) (ts : list Term) (s : string) : bool :=
  match ts with
  | [] => match s with EmptyString => true | _ => false end
  | Class ranges count :: rest =>
      match match_class i ranges count s with
      | Some s' => match_terms i rest s'
      | None => false
      end
  | Lit l :: rest =>
      match s with
      | String c s' => lit_matches i l c && match_terms i rest s'
      | EmptyString => false
      end
  end.

(** [re.test(s)] for a pattern anchored at both ends. *)
Definition test (re : RegExp) (s : string) : bool :=
  match_terms (ignoreCase re) (terms re) s.

Inductive MigrateResult : Type :=
  | Migrated (state : gmap string PValue)
  | MigrateThrown (e : Exception).

(** [(state.conversations || []).filter(conv => uuidRegex.test(conv.id))]
    stored back under [conversations] of [{...state}].  A missing key or
    [null] gives the empty array; an object has no [filter]. *)
Definition migrate (persistedState : gmap string PValue) (version : Z)
    : MigrateResult :=
  let state := persistedState in
  match state !! "conversations" with
  | None | Some (PLibrary None) | Some (PConversation None) =>
      Migrated (<["conversations" := PConversations []]> state)
  | Some (PConversations convs) =>
      Migrated (<["conversations" :=
                    PConversations
                      (List.filter (fun conv => test uuidRegex (conv_id conv))
                                   convs)]> state)
  | Some (PLibraries libs) =>
      Migrated (<["conversations" :=
                    PLibraries
                      (List.filter (fun conv => test uuidRegex (lib_id conv))
                                   libs)]> state)
  | Some (PLibrary (Some _)) | Some (PConversation (Some _)) =>
      MigrateThrown TypeError
  end.

(** *** The canonical textual form of a UUID, as the specification words it:
    five groups of 8, 4, 4, 4 and 12 hexadecimal digits, in either case,
    separated by hyphens. *)

Definition hex_digit (c : ascii) : Prop :=
  In c (list_ascii_of_string "0123456789abcdefABCDEF").

Definition hex_group (n : nat) (g : string) : Prop :=
  String.length g = n ∧ Forall hex_digit (list_ascii_of_string g).

Definition canonical_uuid (s : string) : Prop :=
  ∃ g1 g2 g3 g4 g5 : string,
    s = (g1 ++ "-" ++ g2 ++ "-" ++ g3 ++ "-" ++ g4 ++ "-" ++ g5)%string
    ∧ hex_group 8 g1 ∧ hex_group 4 g2 ∧ hex_group 4 g3
    ∧ hex_group 4 g4 ∧ hex_group 12 g5.

(** [removes_exactly P l kept]: [kept] is [l] without the elements that
    fail [P]; those that satisfy [P] stay, in place and as often as they
    occur. *)
Inductive removes_exactly {A} (P : A -> Prop) : list A -> list A -> Prop :=
  | removes_nil : removes_exactly P [] []
  | removes_keep x l kept :
      P x -> removes_exactly P l kept -> removes_exactly P (x :: l) (x :: kept)
  | removes_drop x l kept :
      ¬ P x -> removes_exactly P l kept -> removes_exactly P (x :: l) kept.

(** The same 22 digits, as a test. *)
Definition hex_digit_b (c : ascii) : bool :=
  existsb (Ascii.eqb c) (list_ascii_of_string "0123456789abcdefABCDEF").

(** ** Scenarios: concrete backends and values used to run the actions *)

Definition epoch : string := "2024-01-01T00:00:00Z".

Definition rawLibrary (id : string) : RawLibrary :=
  {| rl_id := id; rl_name := "Physics"; rl_description := Some "intro notes";
     rl_created_at := epoch; rl_tags := Some "science, intro" |}.

Definition rawConversation (id libId ttl : string) : RawConversation :=
  {| rc_id := id; library_id := libId; rc_title := ttl; rc_messages := [];
     created_at := epoch; updated_at := epoch |}.

Definition document (id : string) : PDFDocument :=
  {| doc_id := id; doc_name := "notes.pdf"; uploadDate := NewDate epoch;
     doc_tags := None; chunks := [] |}.

Definition library (id : string) (docs : list PDFDocument) : Library :=
  {| lib_id := id; lib_name := "Physics"; description := None;
     documents := docs; lib_createdAt := NewDate epoch; lib_tags := Some [] |}.

Definition uuidA : string := "123e4567-e89b-42d3-a456-426614174000".
Definition uuidB : string := "9F8E7D6C-5B4A-4321-8FED-CBA987654321".

(** A backend without state that answers by a fixed table: two libraries
    [L1] and [L2]; listing the conversations of [L2] reports failure;
    every write is accepted. *)
Definition tableBackend (_ : unit) (req : Request) : Reply * unit :=
  (match req with
   | GET_libraries =>
       Resolved {| ok := true;
                   body := JLibraries [rawLibrary "L1"; rawLibrary "L2"] |}
   | GET_documents _ => Resolved {| ok := true; body := JDocuments [] |}
   | GET_conversations libId =>
       if String.eqb libId "L1"
       then Resolved {| ok := true;
                        body := JConversations
                                  [rawConversation uuidA "L1" "Chat A"] |}
       else Resolved {| ok := false; body := JOther |}
   | GET_conversation convId =>
       if String.eqb convId uuidA
       then Resolved {| ok := true;
                        body := JConversation
                                  (rawConversation uuidA "L1" "Chat A") |}
       else if String.eqb convId uuidB
       then Resolved {| ok := true;
                        body := JConversation
                                  (rawConversation uuidB "L2" "Chat B") |}
       else Resolved {| ok := false; body := JOther |}
   | POST_library _ _ _ | DELETE_library _ | POST_conversation _ _
   | POST_message _ _ | PATCH_conversation _ _ | DELETE_conversation _ =>
       Resolved {| ok := true; body := JOther |}
   end, tt).

(** A backend that rejects every write and reports every read as failed. *)
Definition refusingBackend (_ : unit) (req : Request) : Reply * unit :=
  (Resolved {| ok := false; body := JOther |}, tt).

Definition world0 (s : Store) : World unit :=
  {| store := s; backend := tt; calls := [] |}.

(** One library holding one document. *)
Definition oneDocument : Store :=
  {| libraries := [library "L1" [document "d1"]];
     currentLibrary := None;
     conversations := [];
     currentConversation := None |}.

(** Two cached conversations, the first one stale. *)
Definition twoConversations : Store :=
  {| libraries := [library "L1" []; library "L2" []];
     currentLibrary := None;
     conversations := [ {| conv_id := uuidA; libraryId := "L1";
                           title := "old title"; messages := [];
                           createdAt := NewDate epoch;
                           updatedAt := NewDate epoch |};
                        normConversation (rawConversation uuidB "L2" "Chat B") ];
     currentConversation := None |}.

(** One cached conversation, and nothing selected. *)
Definition oneConversation : Store :=
  {| libraries := [library "L1" []; library "L2" []];
     currentLibrary := None;
     conversations := [normConversation (rawConversation uuidA "L1" "Chat A")];
     currentConversation := None |}.

(** A snapshot as [partialize] writes it, with one conversation whose id
    was made up locally. *)
Definition staleSnapshot : gmap string PValue :=
  partialize
    {| libraries := [library "L1" []];
       currentLibrary := None;
       conversations :=
         [ normConversation (rawConversation uuidA "L1" "Chat A");
           normConversation (rawConversation "local-42" "L1" "Draft");
           normConversation (rawConversation uuidB "L1" "Chat B") ];
       currentConversation := None |}.

(** What [migrate] makes of the stale snapshot. *)
Definition migratedSnapshot : gmap string PValue :=
  match migrate staleSnapshot 0 with
  | Migrated m => m
  | MigrateThrown _ => ∅
  end.

Definition twoLibraries : Store :=
  {| libraries := [library "L1" []; library "L2" []];
     currentLibrary := Some (library "gone" []);
     conversations := [];
     currentConversation := None |}.

(** ** The store as a state machine *)

(** The selection is valid when [currentLibrary] is null or has the id
    of a cached library. *)
Definition validSelection (s : Store) : Prop :=
  match currentLibrary s with
  | None => True
  | Some l => lib_id l ∈ List.map lib_id (libraries s)
  end.

(** The actions of [interface LibraryStore] (lines 54-77) other than
    [setCurrentLibrary], which stores whatever library it is handed. *)
Inductive Action : Type :=
  | DoInitialize
  | DoFetchLibraries
  | DoCreateLibrary (name : string) (descr tags : option string)
  | DoDeleteLibrary (id : string)
  | DoAddDocument (libId : string) (doc : PDFDocument)
  | DoRemoveDocument (libId docId : string)
  | DoCreateConversation (libId ttl : string)
  | DoAddMessage (convId : string) (message : ChatMessage)
  | DoSetCurrentConversation (conversation : option Conversation)
  | DoDeleteConversation (convId : string)
  | DoUpdateConversationTitle (convId newTitle : string)
  | DoFetchAllConversations
  | DoFetchConversation (convId : string).

(** [proj] does not look at the conversation fields. *)
Definition libraries_only {X} (proj : Store -> X) : Prop :=
  ∀ s convs cur,
    proj {| libraries := libraries s; currentLibrary := currentLibrary s;
            conversations := convs; currentConversation := cur |}
    = proj s.

Section Machine.

Context {B : Type}.
Variable remote : B -> Request -> Reply * B.

(** The world an action leaves behind, whether it returned or threw. *)
Definition step (a : Action) (w : World B) : World B :=
  match a with
  | DoInitialize => world_of (initialize remote w)
  | DoFetchLibraries => world_of (fetchLibraries remote w)
  | DoCreateLibrary name descr tags =>
      world_of (createLibrary remote name descr tags w)
  | DoDeleteLibrary id => world_of (deleteLibrary remote id w)
  | DoAddDocument libId doc => world_of (addDocument libId doc w)
  | DoRemoveDocument libId docId => world_of (removeDocument libId docId w)
  | DoCreateConversation libId ttl =>
      world_of (createConversation remote libId ttl w)
  | DoAddMessage convId message =>
      world_of (addMessage remote convId message w)
  | DoSetCurrentConversation conversation =>
      world_of (setCurrentConversation conversation w)
  | DoDeleteConversation convId =>
      world_of (deleteConversation remote convId w)
  | DoUpdateConversationTitle convId newTitle =>
      world_of (updateConversationTitle remote convId newTitle w)
  | DoFetchAllConversations => world_of (fetchAllConversations remote w)
  | DoFetchConversation convId => world_of (fetchConversation remote convId w)
  end.

(** Actions performed one after the other; one that threw does not keep
    the next from being called. *)
Definition steps (acts : list Action) (w : World B) : World B :=
  fold_left (fun w a => step a w) acts w.

(** [oblivious m]: run from two worlds with the same backend state, [m]
    has the same outcome and leaves the same backend state, without
    reading or writing the store. *)
Definition oblivious {A} (m : M B A) : Prop :=
  ∀ w1 w2, backend w1 = backend w2 ->
    match m w1, m w2 with
    | Returned a1 w1', Returned a2 w2' =>
        a1 = a2 ∧ backend w1' = backend w2'
        ∧ store w1' = store w1 ∧ store w2' = store w2
    | Thrown e1 w1', Thrown e2 w2' =>
        e1 = e2 ∧ backend w1' = backend w2'
        ∧ store w1' = store w1 ∧ store w2' = store w2
    | _, _ => False
    end.

(** The requests that only read. *)
Definition isRead (req : Request) : bool :=
  match req with
  | GET_libraries | GET_documents _ | GET_conversations _
  | GET_conversation _ => true
  | _ => false
  end.

(** A backend whose state no read changes. *)
Definition quietReads : Prop :=
  ∀ b req, isRead req = true -> snd (remote b req) = b.

(** [m] leaves the backend state as it found it, in every outcome. *)
Definition keeps_backend {A} (m : M B A) : Prop :=
  ∀ w, backend (world_of (m w)) = backend w.

(** ConversationHistory.tsx, lines 45-52: [handleSelectConversation],
    without the toast. *)
Definition handleSelectConversation (conversation : Conversation) : M B unit :=
  fullConv <- fetchConversation remote (conv_id conversation) ;;
  setCurrentConversation (Some fullConv).

End Machine.

(** A backend that cannot be reached: every [fetch] rejects. *)
Definition offlineBackend (_ : unit) (req : Request) : Reply * unit :=
  (Rejected, tt).


(** A store whose selected library is an old copy of [L2], still holding
    a document the backend no longer lists. *)
Definition staleSelection : Store :=
  {| libraries := [library "L2" [document "d1"]];
     currentLibrary := Some (library "L2" [document "d1"]);
     conversations := [];
     currentConversation := None |}.

(** A store with a conversation selected. *)
Definition selectedConversation : Store :=
  {| libraries := [library "L1" []; library "L2" []];
     currentLibrary := Some (library "L2" []);
     conversations :=
       [ normConversation (rawConversation uuidA "L1" "Chat A");
         normConversation (rawConversation uuidB "L2" "Chat B") ];
     currentConversation :=
       Some (normConversation (rawConversation uuidB "L2" "Chat B")) |}.

(** ** Helpers of the views *)

(** ConversationHistory.tsx, lines 33-35: the conversations the history
    view shows, [conv.id && typeof conv.id === "string" &&
    conv.id.length === 36].  Ids are strings here; the length is counted
    in the characters of the embedded string, which is the length
    JavaScript counts for ids made of ASCII characters. *)
Definition validConversations (conversations : list Conversation)
    : list Conversation :=
  List.filter (fun conv => truthy (conv_id conv)
                           && (String.length (conv_id conv) =? 36)%nat)
              conversations.

(** The string with every character replaced by its canonical form: the
    ASCII letters in upper case. *)
Fixpoint canonicalizeString (s : string) : string :=
  match s with
  | EmptyString => EmptyString
  | String c rest => String (canonicalize c) (canonicalizeString rest)
  end.

(** ** Document tags (PDFTagger, src/unnamed/part_000) *)

(** [l.join(sep)]. *)
Fixpoint join (sep : string) (l : list string) : string :=
  match l with
  | [] => EmptyString
  | x :: rest =>
      match rest with
      | [] => x
      | _ => (x ++ sep ++ join sep rest)%string
      end
  end.

(** Lines 28-33: [document.tags ? document.tags.split(",")
    .map(tag => tag.trim()).filter(tag => tag) : []]. *)
Definition currentTags (tags : option string) : list string :=
  match tags with
  | Some t =>
      if truthy t then List.filter truthy (List.map trim (split_comma t))
      else []
  | None => []
  end.


(** Lines 84-86, the string [removeTag] sends:
    [currentTags.filter(tag => tag !== tagToRemove).join(", ")]. *)
Definition removeTag_updatedTags (tags : option string) (tagToRemove : string)
    : string :=
  join ", " (List.filter (fun tag => negb (String.eqb tag tagToRemove))
                         (currentTags tags)).

(** A string without a comma. *)
Definition comma_free (s : string) : Prop :=
  Forall (fun c => c ≠ comma) (list_ascii_of_string s).

(** A tag that can be stored: not empty, no white space around it, no
    comma in it. *)
Definition storable_tag (t : string) : Prop :=
  comma_free t ∧ trim t = t ∧ truthy t = true.

(** ** Document selection (DocumentSelector.tsx, lines 22-42) *)

Definition toggleDocument (selectedDocuments : list string)
    (documentId : string) : list string :=
  if existsb (String.eqb documentId) selectedDocuments
  then List.filter (fun id => negb (String.eqb id documentId)) selectedDocuments
  else selectedDocuments ++ [documentId].

Definition selectAllDocuments (documents : list PDFDocument) : list string :=
  List.map doc_id documents.

Definition getSelectedDocumentNames (documents : list PDFDocument)
    (selectedDocuments : list string) : list string :=
  List.map doc_name
    (List.filter (fun doc => existsb (String.eqb (doc_id doc)) selectedDocuments)
                 documents).

(** ** Chunking of page text (src/qna-pdf-pal/src/utils/pdfProcessor.ts)

    A text is a list of UTF-16 code units, whatever their type.  The
    tests on one code unit are parameters: being the space character,
    and being white space for [trim()].  So is the one floating-point
    comparison of [createChunks], [lastSpaceIndex > chunk.length * 0.7]:
    what is proved holds whatever it answers.  [chunkSize] and [overlap]
    are integers. *)

Module PdfProcessor.
Section Chunking.

Context {Char : Type}.
Variable isSpace : Char -> bool.
Variable isWhiteSpace : Char -> bool.
Variable exceeds70 : Z -> Z -> bool.

(** [s.length]. *)
Definition len (s : list Char) : Z := Z.of_nat (length s).

(** An index as [substring] reads it: below 0 is 0, beyond the length is
    the length. *)
Definition clamp (s : list Char) (i : Z) : nat :=
  Z.to_nat (Z.min (Z.max i 0) (len s)).

(** [s.substring(a, b)]: the two indices are clamped, and swapped when
    the first is the larger. *)
Definition substring (s : list Char) (a b : Z) : list Char :=
  let lo := Nat.min (clamp s a) (clamp s b) in
  let hi := Nat.max (clamp s a) (clamp s b) in
  firstn (hi - lo) (skipn lo s).

(** [s.lastIndexOf(' ')]: -1 when there is no space. *)
Fixpoint lastIndexOf (s : list Char) : Z :=
  match s with
  | [] => (-1)%Z
  | c :: rest =>
      let i := lastIndexOf rest in
      if (0 <=? i)%Z then (i + 1)%Z
      else if isSpace c then 0%Z else (-1)%Z
  end.

Fixpoint trimStart (s : list Char) : list Char :=
  match s with
  | [] => []
  | c :: rest => if isWhiteSpace c then trimStart rest else s
  end.

(** [s.trim()]. *)
Definition trimChars (s : list Char) : list Char :=
  rev (trimStart (rev (trimStart s))).

(** The [while] loop of lines 72-89, with [fuel] bounding the number of
    tests of its condition; [None] when the fuel runs out. *)
Fixpoint createChunks_loop (fuel : nat) (text : list Char)
    (chunkSize overlap : Z) (startIndex : Z) (chunks : list (list Char))
    : option (list (list Char)) :=
  match fuel with
  | O => None
  | S fuel' =>
      if (startIndex <? len text)%Z then
        let endIndex := Z.min (startIndex + chunkSize) (len text) in
        let chunk := substring text startIndex endIndex in
        let chunk :=
          if (endIndex <? len text)%Z then
            let lastSpaceIndex := lastIndexOf chunk in
            if exceeds70 lastSpaceIndex (len chunk)
            then substring chunk 0 lastSpaceIndex
            else chunk
          else chunk in
        let chunks := chunks ++ [trimChars chunk] in
        if (len text <=? endIndex)%Z then Some chunks
        else createChunks_loop fuel' text chunkSize overlap
               (endIndex - overlap)%Z chunks
      else Some chunks
  end.

(** [createChunks(text, chunkSize, overlap)] (lines 68-92). *)
Definition createChunks (fuel : nat) (text : list Char)
    (chunkSize overlap : Z) : option (list (list Char)) :=
  match createChunks_loop fuel text chunkSize overlap 0 [] with
  | Some chunks =>
      Some (List.filter (fun chunk => (0 <? len chunk)%Z) chunks)
  | None => None
  end.

(** [c] occurs in [s] as a run of consecutive code units. *)
Definition occurs_in (c s : list Char) : Prop :=
  ∃ before after, s = before ++ c ++ after.

End Chunking.

(** The comparison with exact arithmetic, for running the function. *)
Definition exceeds70_exact (lastSpaceIndex length : Z) : bool :=
  (7 * length <? 10 * lastSpaceIndex)%Z.

Definition isSpaceAscii (c : ascii) : bool := Ascii.eqb c " "%char.

End PdfProcessor.

(** * Properties *)

Section Properties.

Context {B : Type}.
Variable remote : B -> Request -> Reply * B.

(** ** Running the monad *)

Lemma bind_returned {A C} (m : M B A) (k : A -> M B C) w c w' :
  bind m k w = Returned c w' ->
  ∃ a w1, m w = Returned a w1 ∧ k a w1 = Returned c w'.
Proof.
  unfold bind. destruct (m w) as [a w1|e w1]; [eauto | done].
Qed.

Lemma bind_run {A C} (m : M B A) (k : A -> M B C) w a w1 :
  m w = Returned a w1 -> bind m k w = k a w1.
Proof. intros H. unfold bind. by rewrite H. Qed.

Lemma bind_thrown {A C} (m : M B A) (k : A -> M B C) w e w1 :
  m w = Thrown e w1 -> bind m k w = Thrown e w1.
Proof. intros H. unfold bind. by rewrite H. Qed.

Lemma fetch_resolved req w res b' :
  remote (backend w) req = (Resolved res, b') ->
  fetch remote req w = Returned res (answered remote w req).
Proof. intros H. unfold fetch, answered. by rewrite H. Qed.

Lemma fetch_rejected req w b' :
  remote (backend w) req = (Rejected, b') ->
  fetch remote req w = Thrown FetchFailed (answered remote w req).
Proof. intros H. unfold fetch, answered. by rewrite H. Qed.

Lemma fetch_returned req w res w1 :
  fetch remote req w = Returned res w1 ->
  fst (remote (backend w) req) = Resolved res ∧ w1 = answered remote w req.
Proof.
  unfold fetch, answered.
  destruct (remote (backend w) req) as [[|r] b']; [done|].
  by intros [= -> <-].
Qed.

Lemma json_libraries_returned (res : Response) (w : World B) raw w1 :
  json_libraries res w = Returned raw w1 ->
  body res = JLibraries raw ∧ w1 = w.
Proof.
  unfold json_libraries. destruct (body res); try done.
  by intros [= -> ->].
Qed.

Lemma json_documents_returned (res : Response) (w : World B) docs w1 :
  json_documents res w = Returned docs w1 ->
  body res = JDocuments docs ∧ w1 = w.
Proof.
  unfold json_documents. destruct (body res); try done.
  by intros [= -> ->].
Qed.

(** ** What an action leaves alone *)

Lemma keeps_ret {X A} (proj : Store -> X) (a : A) : keeps proj (@ret B A a).
Proof. intros w. reflexivity. Qed.

Lemma keeps_throw {X A} (proj : Store -> X) e : keeps proj (@throw B A e).
Proof. intros w. reflexivity. Qed.

Lemma keeps_get {X} (proj : Store -> X) : keeps proj (@get B).
Proof. intros w. reflexivity. Qed.

Lemma keeps_bind {X A C} (proj : Store -> X) (m : M B A) (k : A -> M B C) :
  keeps proj m -> (∀ a, keeps proj (k a)) -> keeps proj (bind m k).
Proof.
  intros Hm Hk w. unfold bind. specialize (Hm w).
  destruct (m w) as [a w1 | e w1]; simpl in *.
  - rewrite Hk. exact Hm.
  - exact Hm.
Qed.

Lemma keeps_fetch {X} (proj : Store -> X) req : keeps proj (fetch remote req).
Proof.
  intros w. unfold fetch.
  destruct (remote (backend w) req) as [[|res] b']; reflexivity.
Qed.

Lemma keeps_set {X} (proj : Store -> X) (f : Store -> Store) :
  (∀ s, proj (f s) = proj s) -> keeps proj (@set B f).
Proof. intros Hf w. simpl. apply Hf. Qed.

Lemma keeps_json_conversations {X} (proj : Store -> X) res :
  keeps proj (@json_conversations B res).
Proof.
  unfold json_conversations.
  destruct (body res); auto using @keeps_ret, @keeps_throw.
Qed.

Lemma keeps_json_documents {X} (proj : Store -> X) res :
  keeps proj (@json_documents B res).
Proof.
  unfold json_documents.
  destruct (body res); auto using @keeps_ret, @keeps_throw.
Qed.

Lemma keeps_mapM {X Y Z} (proj : Store -> X) (f : Y -> M B Z) xs :
  (∀ x, keeps proj (f x)) -> keeps proj (mapM f xs).
Proof.
  intros Hf. induction xs as [|x xs IH]; simpl.
  - apply keeps_ret.
  - apply keeps_bind; [apply Hf|]. intros y.
    apply keeps_bind; [exact IH|]. intros ys. apply keeps_ret.
Qed.

Lemma keeps_loop {X} (proj : Store -> X) libs acc :
  keeps proj (fetchAllConversations_loop remote libs acc).
Proof.
  revert acc. induction libs as [|lib libs IH]; intros acc; simpl.
  - apply keeps_ret.
  - apply keeps_bind; [apply keeps_fetch|]. intros res.
    destruct (ok res); [|apply IH].
    apply keeps_bind; [apply keeps_json_conversations|].
    intros convs. apply IH.
Qed.

(** A conversation refresh writes [conversations] and nothing else. *)
Lemma keeps_fetchAllConversations {X} (proj : Store -> X) :
  (∀ s convs,
      proj {| libraries := libraries s; currentLibrary := currentLibrary s;
              conversations := convs;
              currentConversation := currentConversation s |} = proj s) ->
  keeps proj (fetchAllConversations remote).
Proof.
  intros Hproj. unfold fetchAllConversations.
  apply keeps_bind; [apply keeps_get|]. intros state.
  apply keeps_bind; [apply keeps_loop|]. intros allConvs.
  apply keeps_set. intros s. apply Hproj.
Qed.

(** The loop, when every sub-fetch reports failure or success. *)
Lemma loop_answers b libs outs b' :
  answers remote b libs outs b' ->
  ∀ acc s log,
    fetchAllConversations_loop remote libs acc
      {| store := s; backend := b; calls := log |}
    = Returned (acc ++ List.concat (List.map contribution outs))
        {| store := s; backend := b';
           calls := log ++ List.map (fun lib => GET_conversations (lib_id lib))
                                    libs |}.
Proof.
  induction 1 as [b | b lib libs r b1 o outs b' Hr Ho _ IH]; intros acc s log.
  - simpl. unfold ret. by rewrite !app_nil_r.
  - simpl. unfold bind at 1. unfold fetch. simpl. rewrite Hr.
    destruct o as [|convs]; simpl in Ho.
    + destruct Ho as [bd ->]. simpl. rewrite IH.
      by rewrite <- app_assoc.
    + subst r. simpl. unfold bind at 1. simpl. rewrite IH.
      by rewrite <- !app_assoc.
Qed.

(** ** Conversation refresh *)

(** C3. Whatever the known libraries, when each per-library sub-fetch
    either reports failure or succeeds, [fetchAllConversations] returns
    without raising; it replaces the conversation list by the
    conversations of the succeeding libraries, concatenated in the order
    of the library list, a failing library contributing none; it issues
    one request per library and touches nothing else in the store. *)
Theorem fetchAllConversations_partial_failure (w : World B) outs b' :
  answers remote (backend w) (libraries (store w)) outs b' ->
  fetchAllConversations remote w
  = Returned tt
      {| store :=
           {| libraries := libraries (store w);
              currentLibrary := currentLibrary (store w);
              conversations := List.concat (List.map contribution outs);
              currentConversation := currentConversation (store w) |};
         backend := b';
         calls := calls w
                  ++ List.map (fun lib => GET_conversations (lib_id lib))
                              (libraries (store w)) |}.
Proof.
  intros Hans. destruct w as [s b log]. simpl in *.
  unfold fetchAllConversations, bind, get. simpl.
  rewrite (loop_answers _ _ _ _ Hans). reflexivity.
Qed.

(** Outside C3: a sub-fetch whose promise rejects is not a reported
    failure.  The rejection leaves the loop, the refresh throws, and
    the conversation list is not replaced. *)
Lemma fetchAllConversations_rejected (w : World B) lib libs b' :
  libraries (store w) = lib :: libs ->
  remote (backend w) (GET_conversations (lib_id lib)) = (Rejected, b') ->
  fetchAllConversations remote w
  = Thrown FetchFailed (answered remote w (GET_conversations (lib_id lib))).
Proof.
  intros Hl Hr. unfold fetchAllConversations, bind, get. rewrite Hl.
  cbn [fetchAllConversations_loop]. unfold bind.
  by rewrite (fetch_rejected _ _ _ Hr).
Qed.

(** ** Library refresh *)

Lemma selectLibrary_libraries fetched s :
  libraries (selectLibrary fetched s) = fetched.
Proof. reflexivity. Qed.

Lemma first_or_null (fetched : list Library) :
  (if (0 <? length fetched)%nat then fetched !! 0%nat else None)
  = head fetched.
Proof. by destruct fetched. Qed.

Lemma some_id_spec (fetched : list Library) id :
  existsb (fun lib => String.eqb (lib_id lib) id) fetched = true
  <-> id ∈ List.map lib_id fetched.
Proof.
  rewrite existsb_exists, list_elem_of_In, in_map_iff.
  split; intros [lib [H1 H2]]; exists lib.
  - apply String.eqb_eq in H2. auto.
  - split; [tauto|]. apply String.eqb_eq. tauto.
Qed.

(** The selection after the updater: the first fetched library (or
    none) when nothing was selected or the selected identity is gone,
    the previous selection otherwise. *)
Lemma selectLibrary_current fetched s :
  currentLibrary (selectLibrary fetched s)
  = match currentLibrary s with
    | Some cur =>
        if decide (lib_id cur ∈ List.map lib_id fetched)
        then Some cur else head fetched
    | None => head fetched
    end.
Proof.
  unfold selectLibrary. simpl. rewrite first_or_null.
  destruct (currentLibrary s) as [cur|]; [|reflexivity].
  destruct (existsb _ fetched) eqn:E; simpl.
  - apply some_id_spec in E. by rewrite decide_True.
  - rewrite decide_False; [reflexivity|].
    intros Hin. apply some_id_spec in Hin. congruence.
Qed.

Lemma head_id_elem (fetched : list Library) l :
  head fetched = Some l -> lib_id l ∈ List.map lib_id fetched.
Proof.
  destruct fetched as [|x xs]; simpl; [done|].
  intros [= ->]. apply list_elem_of_here.
Qed.

(** The document sub-fetches build one library per listed library,
    with the same identity, and leave the store alone. *)
Lemma mapM_documents libs :
  ∀ w fetched w',
    mapM (fun lib =>
            docRes <- fetch remote (GET_documents (rl_id lib)) ;;
            docs <- json_documents docRes ;;
            ret (normLibrary lib docs)) libs w = Returned fetched w' ->
    List.map lib_id fetched = List.map rl_id libs ∧ store w' = store w.
Proof.
  induction libs as [|lib libs IH]; intros w fetched w'; simpl.
  - unfold ret. intros [= <- <-]. done.
  - intros H.
    apply bind_returned in H as (y & w1 & Hy & H).
    apply bind_returned in H as (ys & w2 & Hys & H).
    unfold ret in H. injection H as <- <-.
    apply bind_returned in Hy as (docRes & w3 & Hf & Hy).
    apply bind_returned in Hy as (docs & w4 & Hj & Hy).
    unfold ret in Hy. injection Hy as <- <-.
    apply fetch_returned in Hf as [_ ->].
    apply json_documents_returned in Hj as [_ ->].
    apply IH in Hys as [E1 E2]. simpl in *. by rewrite E1, E2.
Qed.

(** C1. When [fetchLibraries] completes, the library list mirrors the
    collection the backend returned, and [currentLibrary] is either null
    or a library whose id is in that collection.  If the library
    selected before (if any) has an id that is absent from the new
    collection, [currentLibrary] is the first fetched library, or null
    when the collection is empty. *)
Theorem fetchLibraries_selection (w w' : World B) :
  fetchLibraries remote w = Returned tt w' ->
  (∃ res raw,
      fst (remote (backend w) GET_libraries) = Resolved res
      ∧ body res = JLibraries raw
      ∧ List.map lib_id (libraries (store w')) = List.map rl_id raw)
  ∧ (currentLibrary (store w') = None
     ∨ ∃ l, currentLibrary (store w') = Some l
            ∧ lib_id l ∈ List.map lib_id (libraries (store w')))
  ∧ ((∀ p, currentLibrary (store w) = Some p ->
           lib_id p ∉ List.map lib_id (libraries (store w'))) ->
     currentLibrary (store w') = head (libraries (store w'))).
Proof.
  unfold fetchLibraries. intros H.
  apply bind_returned in H as (res & w1 & Hf & H).
  apply bind_returned in H as (raw & w2 & Hj & H).
  apply bind_returned in H as (fetched & w3 & Hm & H).
  apply bind_returned in H as ([] & w4 & Hs & Hrun).
  apply fetch_returned in Hf as [Hr ->].
  apply json_libraries_returned in Hj as [Hb ->].
  apply mapM_documents in Hm as [Hids Hst]. simpl in Hst.
  unfold set in Hs. injection Hs as <-.
  match type of Hrun with fetchAllConversations _ ?w4 = _ =>
    pose proof (keeps_fetchAllConversations libraries
                  (fun _ _ => eq_refl) w4) as Hl;
    pose proof (keeps_fetchAllConversations currentLibrary
                  (fun _ _ => eq_refl) w4) as Hc
  end.
  rewrite Hrun in Hl, Hc. cbn [world_of store] in Hl, Hc.
  rewrite selectLibrary_libraries in Hl.
  rewrite Hl, Hc, Hst. clear Hrun Hl Hc.
  rewrite selectLibrary_current.
  split; [by exists res, raw|].
  split.
  - destruct (currentLibrary (store w)) as [cur|].
    + case_decide as Hin; [right; eauto|].
      destruct (head fetched) as [l|] eqn:Hh; [|by left].
      right. exists l. split; [done|]. by apply head_id_elem.
    + destruct (head fetched) as [l|] eqn:Hh; [|by left].
      right. exists l. split; [done|]. by apply head_id_elem.
  - intros Habs. destruct (currentLibrary (store w)) as [cur|]; [|done].
    rewrite decide_False; [done|]. by apply Habs.
Qed.

(** ** Creating a conversation *)

Lemma createConversation_ok w libId ttl res b' :
  remote (backend w) (POST_conversation libId ttl) = (Resolved res, b') ->
  ok res = true ->
  createConversation remote libId ttl w
  = match fetchAllConversations remote
            (answered remote w (POST_conversation libId ttl)) with
    | Returned _ w2 =>
        Returned (List.find (matchesConversation libId ttl)
                            (conversations (store w2))) w2
    | Thrown e w2 => Thrown e w2
    end.
Proof.
  intros Hr Hok. unfold createConversation.
  rewrite (bind_run _ _ _ _ _ (fetch_resolved _ _ _ _ Hr)).
  rewrite Hok. simpl. unfold bind at 1.
  destruct (fetchAllConversations remote _) as [[] w2|e w2]; reflexivity.
Qed.

Lemma createConversation_not_ok w libId ttl res b' :
  remote (backend w) (POST_conversation libId ttl) = (Resolved res, b') ->
  ok res = false ->
  createConversation remote libId ttl w
  = Thrown (Error "Failed to create conversation")
           (answered remote w (POST_conversation libId ttl)).
Proof.
  intros Hr Hok. unfold createConversation.
  rewrite (bind_run _ _ _ _ _ (fetch_resolved _ _ _ _ Hr)).
  by rewrite Hok.
Qed.

(** [find] gives the first element that satisfies the predicate. *)
Lemma find_first {A} (p : A -> bool) (before : list A) c after :
  p c = true -> (∀ x, x ∈ before -> p x = false) ->
  List.find p (before ++ c :: after) = Some c.
Proof.
  intros Hc. induction before as [|x before IH]; intros Hb; simpl.
  - by rewrite Hc.
  - rewrite (Hb x) by apply list_elem_of_here.
    apply IH. intros y Hy. apply Hb. by apply list_elem_of_further.
Qed.

Lemma find_none {A} (p : A -> bool) (l : list A) :
  (∀ x, x ∈ l -> p x = false) -> List.find p l = None.
Proof.
  induction l as [|x l IH]; intros Hl; simpl; [done|].
  rewrite (Hl x) by apply list_elem_of_here.
  apply IH. intros y Hy. apply Hl. by apply list_elem_of_further.
Qed.

(** C4. When the remote create reports non-success,
    [createConversation] fails, having issued that one request and left
    the store as it was.  When it reports success, the action is a full
    conversation refresh followed by the lookup: it returns the first
    conversation, in the order of the refreshed list, whose [libraryId]
    and [title] both equal the arguments. *)
Theorem createConversation_lookup (w : World B) libId ttl res b' :
  remote (backend w) (POST_conversation libId ttl) = (Resolved res, b') ->
  (ok res = false ->
     ∃ w', createConversation remote libId ttl w
           = Thrown (Error "Failed to create conversation") w'
           ∧ store w' = store w
           ∧ calls w' = calls w ++ [POST_conversation libId ttl])
  ∧ (ok res = true ->
       createConversation remote libId ttl w
       = match fetchAllConversations remote
                 (answered remote w (POST_conversation libId ttl)) with
         | Returned _ w2 =>
             Returned (List.find (matchesConversation libId ttl)
                                 (conversations (store w2))) w2
         | Thrown e w2 => Thrown e w2
         end
       ∧ ∀ w2 before c after,
           fetchAllConversations remote
             (answered remote w (POST_conversation libId ttl))
           = Returned tt w2 ->
           conversations (store w2) = before ++ c :: after ->
           libraryId c = libId ∧ title c = ttl ->
           (∀ x, x ∈ before -> ¬ (libraryId x = libId ∧ title x = ttl)) ->
           createConversation remote libId ttl w = Returned (Some c) w2).
Proof.
  intros Hr. split; intros Hok.
  - eexists. split; [by apply (createConversation_not_ok _ _ _ _ _ Hr)|].
    done.
  - pose proof (createConversation_ok _ _ _ _ _ Hr Hok) as Hrun.
    split; [exact Hrun|].
    intros w2 before c after Hw2 Hl [Hc1 Hc2] Hb.
    rewrite Hrun, Hw2, Hl. f_equal. apply find_first.
    + unfold matchesConversation.
      apply andb_true_iff. by rewrite !String.eqb_eq.
    + intros x Hx. unfold matchesConversation.
      apply not_true_is_false. intros Hm.
      apply andb_true_iff in Hm. rewrite !String.eqb_eq in Hm.
      by apply (Hb x).
Qed.

(** ** Fetching one conversation *)

Lemma spreadConversation_later c conv : spreadConversation c conv = conv.
Proof. by destruct conv. Qed.

Lemma lookup_map {X Y} (f : X -> Y) (l : list X) (i : nat) :
  List.map f l !! i = f <$> (l !! i).
Proof.
  revert i. induction l as [|x l IH]; intros [|i]; simpl; auto.
Qed.

(** Patching by id with an entity that carries the id keeps the
    sequence of ids. *)
Lemma patch_ids id conv (convs : list Conversation) :
  conv_id conv = id ->
  List.map conv_id
    (List.map (fun c => if String.eqb (conv_id c) id
                        then spreadConversation c conv else c) convs)
  = List.map conv_id convs.
Proof.
  intros Hid. induction convs as [|c convs IH]; simpl; [done|].
  rewrite IH. f_equal.
  destruct (String.eqb (conv_id c) id) eqn:E; [|done].
  apply String.eqb_eq in E. simpl. congruence.
Qed.

(** Patching by an id that no entry has changes nothing. *)
Lemma patch_absent id conv (convs : list Conversation) :
  id ∉ List.map conv_id convs ->
  List.map (fun c => if String.eqb (conv_id c) id
                     then spreadConversation c conv else c) convs
  = convs.
Proof.
  induction convs as [|c convs IH]; simpl; [done|].
  intros Hn. apply not_elem_of_cons in Hn as [Hne Hn].
  rewrite IH by done.
  destruct (String.eqb (conv_id c) id) eqn:E; [|done].
  apply String.eqb_eq in E. congruence.
Qed.

Lemma fetchConversation_ok w id raw b' :
  remote (backend w) (GET_conversation id)
  = (Resolved {| ok := true; body := JConversation raw |}, b') ->
  fetchConversation remote id w
  = Returned (normConversation raw)
      {| store :=
           {| libraries := libraries (store w);
              currentLibrary := currentLibrary (store w);
              conversations :=
                List.map (fun c => if String.eqb (conv_id c) id
                                   then spreadConversation c
                                          (normConversation raw)
                                   else c)
                         (conversations (store w));
              currentConversation := Some (normConversation raw) |};
         backend := b';
         calls := calls w ++ [GET_conversation id] |}.
Proof.
  intros Hr. unfold fetchConversation.
  rewrite (bind_run _ _ _ _ _ (fetch_resolved _ _ _ _ Hr)).
  simpl. unfold answered. by rewrite Hr.
Qed.

Lemma fetchConversation_not_ok w id res b' :
  remote (backend w) (GET_conversation id) = (Resolved res, b') ->
  ok res = false ->
  fetchConversation remote id w
  = Thrown (Error "Failed to fetch conversation")
           (answered remote w (GET_conversation id)).
Proof.
  intros Hr Hok. unfold fetchConversation.
  rewrite (bind_run _ _ _ _ _ (fetch_resolved _ _ _ _ Hr)).
  by rewrite Hok.
Qed.

(** C5. [fetchConversation] fails when the remote reports non-success,
    leaving the store as it was.  On success it returns the fetched
    entity and makes it the current conversation; the conversation list
    keeps its length and its order, each entry whose id is the
    requested one being replaced by the fetched entity and every other
    entry staying in place; when the fetched entity carries the
    requested id, the sequence of ids of the list is unchanged, so no
    id gains a second entry. *)
Theorem fetchConversation_merge (w : World B) id res b' :
  remote (backend w) (GET_conversation id) = (Resolved res, b') ->
  (ok res = false ->
     ∃ w', fetchConversation remote id w
           = Thrown (Error "Failed to fetch conversation") w'
           ∧ store w' = store w)
  ∧ (∀ raw, ok res = true -> body res = JConversation raw ->
       ∃ w', fetchConversation remote id w
             = Returned (normConversation raw) w'
         ∧ currentConversation (store w') = Some (normConversation raw)
         ∧ length (conversations (store w'))
           = length (conversations (store w))
         ∧ (∀ i c, conversations (store w) !! i = Some c ->
                   conversations (store w') !! i
                   = Some (if String.eqb (conv_id c) id
                           then normConversation raw else c))
         ∧ (rc_id raw = id ->
            List.map conv_id (conversations (store w'))
            = List.map conv_id (conversations (store w)))
         ∧ libraries (store w') = libraries (store w)
         ∧ currentLibrary (store w') = currentLibrary (store w)).
Proof.
  intros Hr. split.
  - intros Hok. eexists.
    split; [by apply (fetchConversation_not_ok _ _ _ _ Hr)|done].
  - intros raw Hok Hb. destruct res as [o bd]. simpl in *. subst o bd.
    eexists. split; [by apply fetchConversation_ok|]. simpl.
    split; [done|]. split; [by rewrite length_map|].
    split; [|split; [|done]].
    + intros i c Hi. rewrite lookup_map, Hi. simpl.
      destruct (String.eqb (conv_id c) id); [|done].
      by rewrite spreadConversation_later.
    + intros Hid. by apply patch_ids.
Qed.

(** ** Appending a message *)

(** C6. [addMessage] fails when the remote append does not succeed,
    leaving the store as it was.  When it succeeds the action goes on
    exactly as [fetchConversation] for the same id; if that re-fetch
    succeeds, the fetched conversation replaces the entries of the list
    with that id and becomes the current conversation. *)
Theorem addMessage_commit (w : World B) id msg res b' :
  remote (backend w) (POST_message id msg) = (Resolved res, b') ->
  (ok res = false ->
     ∃ w', addMessage remote id msg w
           = Thrown (Error "Failed to save message") w'
           ∧ store w' = store w)
  ∧ (ok res = true ->
       addMessage remote id msg w
       = match fetchConversation remote id
                 (answered remote w (POST_message id msg)) with
         | Returned _ w2 => Returned tt w2
         | Thrown e w2 => Thrown e w2
         end
       ∧ ∀ raw b2,
           remote b' (GET_conversation id)
           = (Resolved {| ok := true; body := JConversation raw |}, b2) ->
           ∃ w', addMessage remote id msg w = Returned tt w'
             ∧ currentConversation (store w') = Some (normConversation raw)
             ∧ conversations (store w')
               = List.map (fun c => if String.eqb (conv_id c) id
                                    then normConversation raw else c)
                          (conversations (store w))
             ∧ calls w'
               = calls w ++ [POST_message id msg; GET_conversation id]).
Proof.
  intros Hr.
  assert (Hrun : ok res = true ->
            addMessage remote id msg w
            = match fetchConversation remote id
                      (answered remote w (POST_message id msg)) with
              | Returned _ w2 => Returned tt w2
              | Thrown e w2 => Thrown e w2
              end).
  { intros Hok. unfold addMessage.
    rewrite (bind_run _ _ _ _ _ (fetch_resolved _ _ _ _ Hr)).
    rewrite Hok. simpl. unfold bind at 1.
    destruct (fetchConversation remote id _); reflexivity. }
  split.
  - intros Hok. exists (answered remote w (POST_message id msg)).
    split; [|reflexivity].
    unfold addMessage.
    rewrite (bind_run _ _ _ _ _ (fetch_resolved _ _ _ _ Hr)).
    rewrite Hok. reflexivity.
  - intros Hok. split; [by apply Hrun|].
    intros raw b2 Hg. eexists. rewrite (Hrun Hok).
    rewrite (fetchConversation_ok _ _ raw b2);
      [|by unfold answered; simpl; rewrite Hr].
    split; [reflexivity|]. simpl.
    split; [done|]. split.
    + apply map_ext. intros c.
      destruct (String.eqb (conv_id c) id); [|done].
      by rewrite spreadConversation_later.
    + unfold answered. simpl. by rewrite <- app_assoc.
Qed.

(** ** Local document edits *)

Lemma filter_other_ids documentId (docs : list PDFDocument) :
  documentId ∉ List.map doc_id docs ->
  List.filter (fun doc => negb (String.eqb (doc_id doc) documentId)) docs
  = docs.
Proof.
  induction docs as [|x docs IH]; simpl; [done|].
  intros Hn. apply not_elem_of_cons in Hn as [Hne Hn].
  destruct (String.eqb (doc_id x) documentId) eqn:E; simpl.
  - apply String.eqb_eq in E. congruence.
  - by rewrite IH.
Qed.

Lemma add_remove_library libId d (lib : Library) :
  (lib_id lib = libId -> doc_id d ∉ List.map doc_id (documents lib)) ->
  (fun l => if String.eqb (lib_id l) libId
            then {| lib_id := lib_id l; lib_name := lib_name l;
                    description := description l;
                    documents :=
                      List.filter
                        (fun doc => negb (String.eqb (doc_id doc) (doc_id d)))
                        (documents l);
                    lib_createdAt := lib_createdAt l;
                    lib_tags := lib_tags l |}
            else l)
    (if String.eqb (lib_id lib) libId
     then {| lib_id := lib_id lib; lib_name := lib_name lib;
             description := description lib;
             documents := documents lib ++ [d];
             lib_createdAt := lib_createdAt lib;
             lib_tags := lib_tags lib |}
     else lib)
  = lib.
Proof.
  intros Hfresh. destruct (String.eqb (lib_id lib) libId) eqn:E.
  - simpl. rewrite E. apply String.eqb_eq in E.
    rewrite List.filter_app, filter_other_ids by auto. simpl.
    rewrite String.eqb_refl. simpl. rewrite app_nil_r. by destruct lib.
  - by rewrite E.
Qed.

(** C7, as amended. For a document whose id is not yet the id of a
    document of a library called [libId], [addDocument] followed by
    [removeDocument] of that id gives back the store it started from:
    the libraries, hence the set of document identities of [libId], are
    as before; neither action issues a request nor changes the backend. *)
Theorem addDocument_removeDocument_fresh (w : World B) libId d :
  (∀ lib, lib ∈ libraries (store w) -> lib_id lib = libId ->
          doc_id d ∉ List.map doc_id (documents lib)) ->
  ∃ w1 w2,
    addDocument libId d w = Returned tt w1
    ∧ removeDocument libId (doc_id d) w1 = Returned tt w2
    ∧ libraries (store w2) = libraries (store w)
    ∧ documentIds libId (store w2) = documentIds libId (store w)
    ∧ calls w1 = calls w ∧ calls w2 = calls w
    ∧ backend w1 = backend w ∧ backend w2 = backend w.
Proof.
  intros Hfresh. do 2 eexists.
  split; [reflexivity|]. split; [reflexivity|]. simpl.
  match goal with |- ?libs' = _ ∧ _ =>
    assert (Hlibs : libs' = libraries (store w)) end.
  2: { split; [exact Hlibs|]. split; [|done].
       unfold documentIds. simpl. by rewrite Hlibs. }
  rewrite map_map.
  induction (libraries (store w)) as [|lib libs IH]; simpl; [done|].
  rewrite add_remove_library.
  - f_equal. apply IH. intros l Hl. apply Hfresh.
    by apply list_elem_of_further.
  - apply Hfresh. apply list_elem_of_here.
Qed.

End Properties.

(** ** The migration *)

Lemma hex_digit_b_spec c : hex_digit_b c = true <-> hex_digit c.
Proof.
  unfold hex_digit_b, hex_digit. rewrite existsb_exists. split.
  - intros [x [Hx E]]. apply Ascii.eqb_eq in E. by subst.
  - intros H. exists c. split; [done|]. apply Ascii.eqb_refl.
Qed.

(** Under [/i] the class [[0-9a-f]] accepts the digits and the letters
    a to f of either case, and nothing else: all 256 characters are
    tried. *)
Lemma hexClass_ignoreCase c : class_matches true hexClass c = hex_digit_b c.
Proof.
  destruct c as [[] [] [] [] [] [] [] []]; vm_compute; reflexivity.
Qed.

Lemma hyphen_ignoreCase c : lit_matches true "-"%char c = true -> c = "-"%char.
Proof.
  destruct c as [[] [] [] [] [] [] [] []]; vm_compute; congruence.
Qed.

Lemma append_cons c (s t : string) :
  (String c s ++ t)%string = String c (s ++ t)%string.
Proof. reflexivity. Qed.

Lemma append_empty_r (s : string) : (s ++ "")%string = s.
Proof.
  induction s as [|c s IH]; [done|]. by rewrite append_cons, IH.
Qed.

Lemma match_class_sound i rs n :
  ∀ s rest,
    match_class i rs n s = Some rest ->
    ∃ g, s = (g ++ rest)%string ∧ String.length g = n
         ∧ Forall (fun c => class_matches i rs c = true)
                  (list_ascii_of_string g).
Proof.
  induction n as [|n IH]; intros s rest; simpl.
  - intros [= ->]. exists ""%string. by repeat split.
  - destruct s as [|c s]; [done|].
    destruct (class_matches i rs c) eqn:E; [|done].
    intros H. apply IH in H as (g & -> & Hlen & Hall).
    exists (String c g). rewrite append_cons. simpl. repeat split; auto.
Qed.

Lemma match_class_complete i rs n g rest :
  String.length g = n ->
  Forall (fun c => class_matches i rs c = true) (list_ascii_of_string g) ->
  match_class i rs n (g ++ rest)%string = Some rest.
Proof.
  revert n. induction g as [|c g IH]; intros n <- Hall; [done|].
  rewrite append_cons. simpl in *.
  apply Forall_cons in Hall as [Hc Hall]. rewrite Hc. by apply IH.
Qed.

Lemma hex_group_class n g :
  String.length g = n
  ∧ Forall (fun c => class_matches true hexClass c = true)
           (list_ascii_of_string g)
  <-> hex_group n g.
Proof.
  unfold hex_group. split; intros [Hl Hall]; (split; [done|]);
    eapply Forall_impl; eauto; intros c; cbv beta;
    rewrite hexClass_ignoreCase; apply hex_digit_b_spec.
Qed.

Lemma group_step n g ts rest :
  hex_group n g ->
  match_terms true (Class hexClass n :: ts) (g ++ rest)%string
  = match_terms true ts rest.
Proof.
  intros [L A]%hex_group_class. cbn [match_terms].
  by rewrite match_class_complete.
Qed.

Lemma hyphen_step ts rest :
  match_terms true (Lit "-"%char :: ts) ("-" ++ rest)%string
  = match_terms true ts rest.
Proof. reflexivity. Qed.

(** Read one group, or one hyphen, off a successful match [H]. *)
Ltac take_group H g G :=
  match type of H with
  | match match_class ?i ?r ?n ?x with _ => _ end = true =>
      let E := fresh "E" in
      let L := fresh "L" in
      let A := fresh "A" in
      destruct (match_class i r n x) eqn:E; [|discriminate H];
      apply match_class_sound in E as (g & -> & L & A);
      assert (G : hex_group n g) by (apply hex_group_class; by split);
      clear L A
  end.

Ltac take_hyphen H :=
  match type of H with
  | match ?x with EmptyString => false | String _ _ => _ end = true =>
      let D := fresh "D" in
      destruct x; [discriminate H|];
      apply andb_true_iff in H as [D H];
      apply hyphen_ignoreCase in D; subst
  end.

(** The regular expression of the source accepts exactly the canonical
    textual form. *)
Lemma uuidRegex_canonical s : test uuidRegex s = true <-> canonical_uuid s.
Proof.
  unfold test. cbn [uuidRegex terms ignoreCase]. split.
  - cbn [match_terms]. intros H.
    take_group H g1 G1. take_hyphen H.
    take_group H g2 G2. take_hyphen H.
    take_group H g3 G3. take_hyphen H.
    take_group H g4 G4. take_hyphen H.
    take_group H g5 G5.
    match type of H with match ?x with _ => _ end = true =>
      destruct x; [|discriminate H] end.
    exists g1, g2, g3, g4, g5. rewrite append_empty_r.
    split; [reflexivity | tauto].
  - intros (g1 & g2 & g3 & g4 & g5 & -> & H1 & H2 & H3 & H4 & H5).
    rewrite <- (append_empty_r g5).
    rewrite group_step, hyphen_step by done.
    rewrite group_step, hyphen_step by done.
    rewrite group_step, hyphen_step by done.
    rewrite group_step, hyphen_step by done.
    by rewrite group_step.
Qed.

Lemma filter_removes_exactly {A} (f : A -> bool) (P : A -> Prop) l :
  (∀ x, f x = true <-> P x) -> removes_exactly P l (List.filter f l).
Proof.
  intros Hf. induction l as [|x l IH]; simpl; [constructor|].
  destruct (f x) eqn:E.
  - apply removes_keep; [by apply Hf|done].
  - apply removes_drop; [|done]. rewrite <- Hf. congruence.
Qed.

(** C2. On a snapshot that holds a conversation list, [migrate] stores
    back that list without exactly the conversations whose id is not of
    the canonical form (8-4-4-4-12 hexadecimal digits, either case): the
    ones whose id is of that form are all kept, in order.  Every other
    key of the snapshot, [libraries] among them, is carried over as it
    is. *)
Theorem migrate_drops_non_uuid
    (snapshot : gmap string PValue) (version : Z) convs :
  snapshot !! "conversations" = Some (PConversations convs) ->
  ∃ migrated kept,
    migrate snapshot version = Migrated migrated
    ∧ migrated !! "conversations" = Some (PConversations kept)
    ∧ removes_exactly (fun c => canonical_uuid (conv_id c)) convs kept
    ∧ (∀ c, c ∈ kept <-> c ∈ convs ∧ canonical_uuid (conv_id c))
    ∧ migrated !! "libraries" = snapshot !! "libraries"
    ∧ (∀ k, k ≠ "conversations" -> migrated !! k = snapshot !! k).
Proof.
  intros Hc. unfold migrate. rewrite Hc. do 2 eexists.
  split; [reflexivity|]. split; [apply lookup_insert_eq|].
  split; [apply filter_removes_exactly; intros c; apply uuidRegex_canonical|].
  split; [|split].
  - intros c. rewrite !list_elem_of_In, filter_In, uuidRegex_canonical. done.
  - by rewrite lookup_insert_ne.
  - intros k Hk. by rewrite lookup_insert_ne.
Qed.

(** A snapshot without conversations gets the empty list. *)
Lemma migrate_missing (snapshot : gmap string PValue) version :
  snapshot !! "conversations" = None ->
  migrate snapshot version
  = Migrated (<["conversations" := PConversations []]> snapshot).
Proof. intros H. unfold migrate. by rewrite H. Qed.

(** ** The persisted projection *)

(** C8. The record written to storage has exactly the two keys
    [libraries] and [conversations], bound to those fields of the state;
    [currentLibrary] and [currentConversation] are not keys of it, and
    two states with the same libraries and conversations are persisted as
    the same record, whatever their selections. *)
Theorem partialize_projection (s : Store) :
  dom (partialize s) = ({["libraries"; "conversations"]} : gset string)
  ∧ partialize s !! "libraries" = Some (PLibraries (libraries s))
  ∧ partialize s !! "conversations" = Some (PConversations (conversations s))
  ∧ partialize s !! "currentLibrary" = None
  ∧ partialize s !! "currentConversation" = None
  ∧ (∀ s', libraries s' = libraries s -> conversations s' = conversations s ->
           partialize s' = partialize s).
Proof.
  unfold partialize.
  split; [|split; [|split; [|split; [|split]]]].
  - rewrite !dom_insert_L, dom_empty_L. set_solver.
  - apply lookup_insert_eq.
  - rewrite lookup_insert_ne by done. apply lookup_insert_eq.
  - by rewrite !lookup_insert_ne.
  - by rewrite !lookup_insert_ne.
  - intros s' -> ->. reflexivity.
Qed.

(** ** Results that are not guaranteed *)

(** C9. [createConversation] can complete without failing and still
    resolve to no conversation.  Whenever the remote create succeeded and
    the refreshed list holds no entry with the given [libraryId] and
    [title], the action returns [undefined]; and there is such an
    execution: with the table backend the sub-fetch for [L2] reports
    failure during the refresh, and creating "Chat B" in [L2] returns
    [undefined]. *)
Theorem createConversation_undefined :
  (∀ (B : Type) (remote : B -> Request -> Reply * B) (w w2 : World B)
     libId ttl res b',
      remote (backend w) (POST_conversation libId ttl) = (Resolved res, b') ->
      ok res = true ->
      fetchAllConversations remote
        (answered remote w (POST_conversation libId ttl)) = Returned tt w2 ->
      (∀ c, c ∈ conversations (store w2) ->
            ¬ (libraryId c = libId ∧ title c = ttl)) ->
      createConversation remote libId ttl w = Returned None w2)
  ∧ (∃ w2,
        reports (fst (tableBackend tt (GET_conversations "L2"))) Fails
        ∧ createConversation tableBackend "L2" "Chat B" (world0 twoLibraries)
          = Returned None w2).
Proof.
  split.
  - intros B remote w w2 libId ttl res b' Hr Hok Hrefresh Hnone.
    rewrite (createConversation_ok _ _ _ _ _ _ Hr Hok), Hrefresh.
    f_equal. apply find_none. intros c Hc.
    unfold matchesConversation. apply not_true_is_false. intros Hm.
    apply andb_true_iff in Hm. rewrite !String.eqb_eq in Hm.
    by apply (Hnone c).
  - exists (world_of (createConversation tableBackend "L2" "Chat B"
                        (world0 twoLibraries))).
    split; [by eexists|]. reflexivity.
Qed.

(** C10. When no entry of the local list has the requested id, a
    successful [fetchConversation] leaves the conversation list as it
    was and still makes the fetched entity the current conversation; so
    there are executions after which [currentConversation] is not an
    element of [conversations]. *)
Theorem fetchConversation_absent_id :
  (∀ (B : Type) (remote : B -> Request -> Reply * B) (w : World B) id raw b',
      id ∉ List.map conv_id (conversations (store w)) ->
      remote (backend w) (GET_conversation id)
      = (Resolved {| ok := true; body := JConversation raw |}, b') ->
      ∃ w', fetchConversation remote id w = Returned (normConversation raw) w'
            ∧ conversations (store w') = conversations (store w)
            ∧ currentConversation (store w') = Some (normConversation raw))
  ∧ (∃ w' cur,
        fetchConversation tableBackend uuidB (world0 oneConversation)
        = Returned cur w'
        ∧ currentConversation (store w') = Some cur
        ∧ cur ∉ conversations (store w')).
Proof.
  split.
  - intros B remote w id raw b' Habs Hr. eexists.
    split; [by apply fetchConversation_ok|]. simpl.
    split; [by apply patch_absent|done].
  - exists (world_of (fetchConversation tableBackend uuidB
                        (world0 oneConversation))),
           (normConversation (rawConversation uuidB "L2" "Chat B")).
    split; [reflexivity|]. split; [reflexivity|].
    rewrite list_elem_of_In. simpl. intros [H|[]]. discriminate H.
Qed.

(** ** The actions on concrete backends *)

Lemma fetchLibraries_selection_witness :
  fetchLibraries tableBackend (world0 twoLibraries)
  = Returned tt (world_of (fetchLibraries tableBackend (world0 twoLibraries)))
  ∧ currentLibrary
      (store (world_of (fetchLibraries tableBackend (world0 twoLibraries))))
    = Some (normLibrary (rawLibrary "L1") []).
Proof.
  split; [reflexivity|].
  destruct (fetchLibraries_selection tableBackend (world0 twoLibraries)
              (world_of (fetchLibraries tableBackend (world0 twoLibraries)))
              eq_refl) as (_ & _ & Hfirst).
  rewrite Hfirst; [reflexivity|].
  intros p [= <-]. rewrite list_elem_of_In. simpl.
  intros [H|[H|[]]]; discriminate H.
Defined.

Lemma fetchAllConversations_partial_failure_witness :
  fetchAllConversations tableBackend (world0 twoLibraries)
  = Returned tt
      {| store :=
           {| libraries := libraries twoLibraries;
              currentLibrary := currentLibrary twoLibraries;
              conversations :=
                [normConversation (rawConversation uuidA "L1" "Chat A")];
              currentConversation := None |};
         backend := tt;
         calls := [GET_conversations "L1"; GET_conversations "L2"] |}.
Proof.
  apply (fetchAllConversations_partial_failure tableBackend
           (world0 twoLibraries)
           [Succeeds [rawConversation uuidA "L1" "Chat A"]; Fails] tt).
  simpl.
  eapply answers_cons; [reflexivity | reflexivity |].
  eapply answers_cons; [reflexivity | by eexists |].
  apply answers_nil.
Defined.

Lemma createConversation_lookup_witness :
  (∃ w', createConversation refusingBackend "L1" "Chat A" (world0 twoLibraries)
         = Thrown (Error "Failed to create conversation") w'
         ∧ store w' = twoLibraries)
  ∧ (∃ w2, createConversation tableBackend "L1" "Chat A" (world0 twoLibraries)
           = Returned
               (Some (normConversation (rawConversation uuidA "L1" "Chat A")))
               w2).
Proof.
  split.
  - destruct (createConversation_lookup refusingBackend (world0 twoLibraries)
                "L1" "Chat A" _ tt eq_refl) as [Hfail _].
    destruct (Hfail eq_refl) as (w' & Hrun & Hst & _). eauto.
  - destruct (createConversation_lookup tableBackend (world0 twoLibraries)
                "L1" "Chat A" _ tt eq_refl) as [_ Hok].
    destruct (Hok eq_refl) as [_ Hfirst]. eexists.
    apply (Hfirst _ [] _ [] eq_refl eq_refl); [done|].
    intros x Hx. by apply not_elem_of_nil in Hx.
Defined.

Lemma fetchConversation_merge_witness :
  (∃ w', fetchConversation refusingBackend uuidA (world0 twoConversations)
         = Thrown (Error "Failed to fetch conversation") w'
         ∧ store w' = twoConversations)
  ∧ (∃ w', fetchConversation tableBackend uuidA (world0 twoConversations)
           = Returned (normConversation (rawConversation uuidA "L1" "Chat A")) w'
           ∧ List.map conv_id (conversations (store w')) = [uuidA; uuidB]
           ∧ List.map title (conversations (store w')) = ["Chat A"; "Chat B"]).
Proof.
  split.
  - destruct (fetchConversation_merge refusingBackend (world0 twoConversations)
                uuidA _ tt eq_refl) as [Hfail _].
    exact (Hfail eq_refl).
  - destruct (fetchConversation_merge tableBackend (world0 twoConversations)
                uuidA _ tt eq_refl) as [_ Hok].
    destruct (Hok _ eq_refl eq_refl)
      as (w' & Hrun & _ & _ & _ & Hids & _).
    exists w'. split; [exact Hrun|]. split; [exact (Hids eq_refl)|].
    rewrite Hrun in Hok. clear Hids.
    vm_compute in Hrun. injection Hrun as <-. reflexivity.
Defined.

Lemma addMessage_commit_witness :
  (∃ w', addMessage refusingBackend uuidA
           {| msg_id := "m1"; msg_content := "hello"; role := user;
              timestamp := NewDate epoch; sources := None |}
           (world0 twoConversations)
         = Thrown (Error "Failed to save message") w'
         ∧ store w' = twoConversations)
  ∧ (∃ w', addMessage tableBackend uuidA
             {| msg_id := "m1"; msg_content := "hello"; role := user;
                timestamp := NewDate epoch; sources := None |}
             (world0 twoConversations)
           = Returned tt w'
           ∧ currentConversation (store w')
             = Some (normConversation (rawConversation uuidA "L1" "Chat A"))).
Proof.
  split.
  - destruct (addMessage_commit refusingBackend (world0 twoConversations)
                uuidA {| msg_id := "m1"; msg_content := "hello"; role := user;
                         timestamp := NewDate epoch; sources := None |}
                _ tt eq_refl) as [Hfail _].
    exact (Hfail eq_refl).
  - destruct (addMessage_commit tableBackend (world0 twoConversations)
                uuidA {| msg_id := "m1"; msg_content := "hello"; role := user;
                         timestamp := NewDate epoch; sources := None |}
                _ tt eq_refl) as [_ Hok].
    destruct (Hok eq_refl) as [_ Hcommit].
    destruct (Hcommit _ tt eq_refl) as (w' & Hrun & Hcur & _).
    eauto.
Defined.

Lemma addDocument_removeDocument_fresh_witness :
  ∃ w1 w2,
    addDocument "L1" (document "d2") (world0 oneDocument) = Returned tt w1
    ∧ removeDocument "L1" "d2" w1 = Returned tt w2
    ∧ libraries (store w2) = libraries oneDocument
    ∧ calls w2 = [].
Proof.
  destruct (addDocument_removeDocument_fresh (world0 oneDocument) "L1"
              (document "d2")) as (w1 & w2 & H1 & H2 & H3 & _ & _ & H4 & _).
  - intros lib Hin _. apply list_elem_of_In in Hin. simpl in Hin.
    destruct Hin as [<-|[]]. rewrite list_elem_of_In. simpl.
    intros [H|[]]; discriminate H.
  - exists w1, w2. auto.
Defined.

(** C7, as stated, fails: when the library already holds a document with
    the id of the one that is added, removing by that id takes both
    away, and the identity set loses an element. *)
Lemma addDocument_removeDocument_duplicate_id :
  "L1" ∈ List.map lib_id (libraries oneDocument)
  ∧ addDocument "L1" (document "d1") (world0 oneDocument)
    = Returned tt
        (world_of (addDocument "L1" (document "d1") (world0 oneDocument)))
  ∧ removeDocument "L1" "d1"
      (world_of (addDocument "L1" (document "d1") (world0 oneDocument)))
    = Returned tt (world0 {| libraries := [library "L1" []];
                             currentLibrary := None;
                             conversations := [];
                             currentConversation := None |})
  ∧ documentIds "L1" {| libraries := [library "L1" []];
                        currentLibrary := None;
                        conversations := [];
                        currentConversation := None |}
    ≠ documentIds "L1" oneDocument.
Proof.
  split; [apply list_elem_of_here|].
  split; [reflexivity|]. split; [reflexivity|].
  intros Heq.
  assert (Hin : "d1" ∈ documentIds "L1" oneDocument).
  { unfold documentIds. simpl. set_solver. }
  rewrite <- Heq in Hin. unfold documentIds in Hin. simpl in Hin.
  set_solver.
Qed.

Lemma migrate_drops_non_uuid_witness :
  ∃ migrated,
    migrate staleSnapshot 0 = Migrated migrated
    ∧ migrated !! "conversations"
      = Some (PConversations
                [ normConversation (rawConversation uuidA "L1" "Chat A");
                  normConversation (rawConversation uuidB "L1" "Chat B") ])
    ∧ migrated !! "libraries" = Some (PLibraries [library "L1" []]).
Proof.
  destruct (migrate_drops_non_uuid staleSnapshot 0 _ eq_refl)
    as (migrated & kept & Hrun & Hconvs & _ & _ & Hlibs & _).
  exists migrated. split; [exact Hrun|].
  unfold migrate in Hrun. simpl in Hrun. injection Hrun as <-.
  split; [|by rewrite Hlibs]. apply lookup_insert_eq.
Defined.

Lemma createConversation_undefined_witness :
  createConversation tableBackend "L2" "Chat B" (world0 twoLibraries)
  = Returned None
      (world_of (fetchAllConversations tableBackend
                   (answered tableBackend (world0 twoLibraries)
                      (POST_conversation "L2" "Chat B")))).
Proof.
  apply (proj1 createConversation_undefined unit tableBackend
           (world0 twoLibraries) _ "L2" "Chat B" _ tt eq_refl eq_refl eq_refl).
  simpl. intros c Hc. apply list_elem_of_In in Hc.
  destruct Hc as [<-|[]]. simpl. intros [H _]. discriminate H.
Defined.

Lemma fetchConversation_absent_id_witness :
  ∃ w', fetchConversation tableBackend uuidB (world0 oneConversation)
        = Returned (normConversation (rawConversation uuidB "L2" "Chat B")) w'
        ∧ conversations (store w') = conversations oneConversation
        ∧ currentConversation (store w')
          = Some (normConversation (rawConversation uuidB "L2" "Chat B")).
Proof.
  apply (proj1 fetchConversation_absent_id unit tableBackend
           (world0 oneConversation)
           uuidB (rawConversation uuidB "L2" "Chat B") tt).
  - simpl. rewrite list_elem_of_In. simpl. intros [H|[]]. discriminate H.
  - reflexivity.
Defined.

(** * Further properties of the store *)

Section MachineProperties.

Context {B : Type}.
Variable remote : B -> Request -> Reply * B.

(** ** More on what actions leave alone *)

Lemma bind_outcome {A C} (m : M B A) (k : A -> M B C) w :
  bind m k w = match m w with
               | Returned a w1 => k a w1
               | Thrown e w1 => Thrown e w1
               end.
Proof. reflexivity. Qed.

Lemma keeps_world {X A} (proj : Store -> X) (m : M B A) w o :
  keeps proj m -> m w = o -> proj (store (world_of o)) = proj (store w).
Proof. intros Hk <-. apply Hk. Qed.

Lemma keeps_json_conversation {X} (proj : Store -> X) res :
  keeps proj (@json_conversation B res).
Proof.
  unfold json_conversation.
  destruct (body res); auto using @keeps_ret, @keeps_throw.
Qed.

Lemma keeps_json_libraries {X} (proj : Store -> X) res :
  keeps proj (@json_libraries B res).
Proof.
  unfold json_libraries.
  destruct (body res); auto using @keeps_ret, @keeps_throw.
Qed.

Lemma keeps_if {X A} (proj : Store -> X) (b : bool) (m1 m2 : M B A) :
  keeps proj m1 -> keeps proj m2 -> keeps proj (if b then m1 else m2).
Proof. by destruct b. Qed.

Lemma libraries_only_refresh {X} (proj : Store -> X) :
  libraries_only proj ->
  ∀ s convs,
    proj {| libraries := libraries s; currentLibrary := currentLibrary s;
            conversations := convs;
            currentConversation := currentConversation s |} = proj s.
Proof. intros H s convs. apply H. Qed.

Lemma keeps_fetchConversation {X} (proj : Store -> X) id :
  libraries_only proj -> keeps proj (fetchConversation remote id).
Proof.
  intros Hp. unfold fetchConversation.
  apply keeps_bind; [apply keeps_fetch|]. intros res.
  apply keeps_if; [apply keeps_throw|].
  apply keeps_bind; [apply keeps_json_conversation|]. intros raw.
  apply keeps_bind; [|intros; apply keeps_ret].
  apply keeps_set. intros s. apply Hp.
Qed.

Lemma keeps_addMessage {X} (proj : Store -> X) id msg :
  libraries_only proj -> keeps proj (addMessage remote id msg).
Proof.
  intros Hp. unfold addMessage.
  apply keeps_bind; [apply keeps_fetch|]. intros res.
  apply keeps_if; [apply keeps_throw|].
  apply keeps_bind; [by apply keeps_fetchConversation|].
  intros; apply keeps_ret.
Qed.

Lemma keeps_createConversation {X} (proj : Store -> X) libId ttl :
  (∀ s convs,
      proj {| libraries := libraries s; currentLibrary := currentLibrary s;
              conversations := convs;
              currentConversation := currentConversation s |} = proj s) ->
  keeps proj (createConversation remote libId ttl).
Proof.
  intros Hp. unfold createConversation.
  apply keeps_bind; [apply keeps_fetch|]. intros res.
  apply keeps_if; [apply keeps_throw|].
  apply keeps_bind; [by apply keeps_fetchAllConversations|]. intros _.
  apply keeps_bind; [apply keeps_get|]. intros; apply keeps_ret.
Qed.

Lemma keeps_updateConversationTitle {X} (proj : Store -> X) id newTitle :
  (∀ s convs,
      proj {| libraries := libraries s; currentLibrary := currentLibrary s;
              conversations := convs;
              currentConversation := currentConversation s |} = proj s) ->
  keeps proj (updateConversationTitle remote id newTitle).
Proof.
  intros Hp. unfold updateConversationTitle.
  apply keeps_bind; [apply keeps_fetch|]. intros res.
  apply keeps_if; [apply keeps_throw|].
  by apply keeps_fetchAllConversations.
Qed.

Lemma keeps_deleteConversation {X} (proj : Store -> X) id :
  libraries_only proj -> keeps proj (deleteConversation remote id).
Proof.
  intros Hp. unfold deleteConversation.
  apply keeps_bind; [apply keeps_set; intros s; apply Hp|]. intros _.
  apply keeps_bind; [apply keeps_fetch|]. intros _.
  apply keeps_fetchAllConversations. by apply libraries_only_refresh.
Qed.

Lemma libraries_only_libraries : libraries_only libraries.
Proof. by intros s convs cur. Qed.

Lemma libraries_only_currentLibrary : libraries_only currentLibrary.
Proof. by intros s convs cur. Qed.

(** X1. None of the conversation actions touches the library list or
    the selected library, whatever the backend answers and whether the
    action returns or throws. *)
Theorem conversation_actions_keep_libraries (w : World B) :
  ∀ a,
    match a with
    | DoFetchAllConversations | DoFetchConversation _ | DoAddMessage _ _
    | DoCreateConversation _ _ | DoDeleteConversation _
    | DoUpdateConversationTitle _ _ =>
        libraries (store (step remote a w)) = libraries (store w)
        ∧ currentLibrary (store (step remote a w)) = currentLibrary (store w)
    | _ => True
    end.
Proof.
  pose proof libraries_only_libraries as Hl.
  pose proof libraries_only_currentLibrary as Hc.
  intros []; simpl; try exact I; split;
    first [ by apply keeps_fetchAllConversations
          | by apply keeps_fetchConversation
          | by apply keeps_addMessage
          | by apply keeps_createConversation
          | by apply keeps_deleteConversation
          | by apply keeps_updateConversationTitle ].
Qed.

(** X2. A conversation refresh does not repair the selection: through
    [fetchAllConversations], [createConversation] and
    [updateConversationTitle] the current conversation stays the object
    it was, in every outcome and whatever the refreshed list holds. *)
Theorem refresh_keeps_currentConversation (w : World B) :
  currentConversation (store (world_of (fetchAllConversations remote w)))
  = currentConversation (store w)
  ∧ (∀ libId ttl,
        currentConversation
          (store (world_of (createConversation remote libId ttl w)))
        = currentConversation (store w))
  ∧ (∀ id newTitle,
        currentConversation
          (store (world_of (updateConversationTitle remote id newTitle w)))
        = currentConversation (store w)).
Proof.
  split; [|split]; intros.
  - by apply keeps_fetchAllConversations.
  - by apply keeps_createConversation.
  - by apply keeps_updateConversationTitle.
Qed.

(** ** The selection invariant *)

Lemma validSelection_same s s' :
  List.map lib_id (libraries s') = List.map lib_id (libraries s) ->
  currentLibrary s' = currentLibrary s ->
  validSelection s -> validSelection s'.
Proof. unfold validSelection. by intros -> ->. Qed.

Lemma validSelection_selectLibrary fetched s :
  validSelection (selectLibrary fetched s).
Proof.
  unfold validSelection. rewrite selectLibrary_current, selectLibrary_libraries.
  destruct (currentLibrary s) as [cur|].
  - case_decide; [done|].
    destruct (head fetched) eqn:E; [by apply head_id_elem|done].
  - destruct (head fetched) eqn:E; [by apply head_id_elem|done].
Qed.

(** The three ways [fetchLibraries] can end: thrown before the commit,
    thrown by the trailing refresh after the commit, or returned. *)
Lemma fetchLibraries_cases (w : World B) :
  (∃ e w', fetchLibraries remote w = Thrown e w' ∧ store w' = store w)
  ∨ (∃ e w' fetched,
        fetchLibraries remote w = Thrown e w'
        ∧ store w' = selectLibrary fetched (store w))
  ∨ (∃ w' fetched convs,
        fetchLibraries remote w = Returned tt w'
        ∧ store w'
          = {| libraries := fetched;
               currentLibrary := currentLibrary (selectLibrary fetched (store w));
               conversations := convs;
               currentConversation := currentConversation (store w) |}).
Proof.
  unfold fetchLibraries. rewrite bind_outcome.
  destruct (fetch remote GET_libraries w) as [res w1|e w1] eqn:Hf.
  2: { left. exists e, w1. split; [done|].
       apply (keeps_world (fun s => s) _ _ _ (keeps_fetch remote _ _) Hf). }
  pose proof (keeps_world (fun s => s) _ _ _ (keeps_fetch remote _ _) Hf) as H1.
  simpl in H1. rewrite bind_outcome.
  destruct (json_libraries res w1) as [raw w2|e w2] eqn:Hj.
  2: { left. exists e, w2. split; [done|]. rewrite <- H1.
       apply (keeps_world (fun s => s) _ _ _ (keeps_json_libraries _ _) Hj). }
  pose proof (keeps_world (fun s => s) _ _ _ (keeps_json_libraries _ _) Hj) as H2.
  simpl in H2. rewrite bind_outcome.
  match goal with |- context [mapM ?f raw w2] =>
    assert (Hk : keeps (fun s => s) (mapM f raw));
    [ apply keeps_mapM; intros lib;
      apply keeps_bind; [apply keeps_fetch|]; intros docRes;
      apply keeps_bind; [apply keeps_json_documents|]; intros docs;
      apply keeps_ret
    | destruct (mapM f raw w2) as [fetched w3|e w3] eqn:Hm ]
  end.
  2: { left. exists e, w3. split; [done|]. rewrite <- H1, <- H2.
       apply (keeps_world (fun s => s) _ _ _ Hk Hm). }
  pose proof (keeps_world (fun s => s) _ _ _ Hk Hm) as H3. simpl in H3.
  rewrite bind_outcome. cbn [set].
  match goal with |- context [fetchAllConversations remote ?w4] =>
    destruct (fetchAllConversations remote w4) as [[] w5|e w5] eqn:Hr;
    pose proof (keeps_world libraries _ _ _
                  (keeps_fetchAllConversations remote libraries
                     (fun _ _ => eq_refl)) Hr) as Hl;
    pose proof (keeps_world currentLibrary _ _ _
                  (keeps_fetchAllConversations remote currentLibrary
                     (fun _ _ => eq_refl)) Hr) as Hc;
    pose proof (keeps_world currentConversation _ _ _
                  (keeps_fetchAllConversations remote currentConversation
                     (fun _ _ => eq_refl)) Hr) as Hcc
  end; cbn [world_of store] in Hl, Hc, Hcc.
  - right. right. exists w5, fetched, (conversations (store w5)).
    split; [done|]. rewrite H3, H2, H1 in *.
    destruct (store w5); simpl in *. by subst.
  - right. left. exists e, w5, fetched. split; [done|].
    unfold fetchAllConversations in Hr. rewrite bind_outcome in Hr.
    cbn [get] in Hr. rewrite bind_outcome in Hr.
    match type of Hr with context [fetchAllConversations_loop remote ?l ?a ?w4] =>
      destruct (fetchAllConversations_loop remote l a w4) as [cs w6|e6 w6] eqn:Hloop
    end; [done|].
    injection Hr as <- <-.
    pose proof (keeps_world (fun s => s) _ _ _ (keeps_loop remote _ _ _) Hloop)
      as H6.
    simpl in H6. by rewrite H6, H3, H2, H1.
Qed.

(** A conversation refresh either replaces the list or, when it throws,
    leaves the store exactly as it was. *)
Lemma fetchAllConversations_cases (w : World B) :
  (∃ e w', fetchAllConversations remote w = Thrown e w' ∧ store w' = store w)
  ∨ (∃ w' convs,
        fetchAllConversations remote w = Returned tt w'
        ∧ store w'
          = {| libraries := libraries (store w);
               currentLibrary := currentLibrary (store w);
               conversations := convs;
               currentConversation := currentConversation (store w) |}).
Proof.
  unfold fetchAllConversations. rewrite bind_outcome. cbn [get].
  rewrite bind_outcome.
  destruct (fetchAllConversations_loop remote (libraries (store w)) [] w)
    as [convs w1|e w1] eqn:Hloop;
    pose proof (keeps_world (fun s => s) _ _ _ (keeps_loop remote _ _ _) Hloop)
      as H1; simpl in H1.
  - right. exists (world_of (set (fun s =>
                      {| libraries := libraries s;
                         currentLibrary := currentLibrary s;
                         conversations := convs;
                         currentConversation := currentConversation s |}) w1)),
             convs.
    split; [reflexivity|]. simpl. by rewrite H1.
  - left. by exists e, w1.
Qed.

Lemma validSelection_fetchLibraries (w : World B) :
  validSelection (store w) ->
  validSelection (store (world_of (fetchLibraries remote w))).
Proof.
  intros Hv.
  destruct (fetchLibraries_cases w)
    as [(e & w' & -> & Hs) | [(e & w' & fetched & -> & Hs)
                             | (w' & fetched & convs & -> & Hs)]];
    cbn [world_of]; rewrite Hs.
  - done.
  - apply validSelection_selectLibrary.
  - apply (validSelection_same (selectLibrary fetched (store w)));
      [done | done | apply validSelection_selectLibrary].
Qed.

Lemma validSelection_keeps {A} (m : M B A) w :
  keeps libraries m -> keeps currentLibrary m ->
  validSelection (store w) -> validSelection (store (world_of (m w))).
Proof.
  intros Hl Hc. apply validSelection_same; [by rewrite Hl | apply Hc].
Qed.

Lemma validSelection_setCurrentConversation conversation (w : World B) :
  validSelection (store w) ->
  validSelection (store (world_of (setCurrentConversation conversation w))).
Proof.
  intros Hv. unfold setCurrentConversation.
  destruct conversation as [conv|]; [|exact Hv].
  rewrite bind_outcome, bind_outcome. cbn [get].
  destruct (List.find _ (libraries (store w))) as [library|] eqn:Hfind;
    [|exact Hv].
  simpl. unfold validSelection. simpl.
  apply find_some in Hfind as [Hin _].
  apply list_elem_of_In, in_map, Hin.
Qed.

Lemma map_lib_id_same (f : Library -> Library) libs :
  (∀ lib, lib_id (f lib) = lib_id lib) ->
  List.map lib_id (List.map f libs) = List.map lib_id libs.
Proof.
  intros Hf. rewrite map_map. apply map_ext. intros lib. apply Hf.
Qed.

Lemma step_validSelection a (w : World B) :
  validSelection (store w) -> validSelection (store (step remote a w)).
Proof.
  intros Hv. destruct a; cbn [step].
  - (* initialize *)
    unfold initialize. rewrite bind_outcome.
    pose proof (validSelection_fetchLibraries w Hv) as Hf.
    destruct (fetchLibraries remote w) as [[] w1|e w1]; simpl in Hf; [|done].
    apply validSelection_keeps; [| |done];
      by apply keeps_fetchAllConversations.
  - by apply validSelection_fetchLibraries.
  - (* createLibrary *)
    unfold createLibrary. rewrite bind_outcome.
    destruct (fetch remote _ w) as [res w1|e w1] eqn:Hf;
      pose proof (keeps_world (fun s => s) _ _ _ (keeps_fetch remote _ _) Hf)
        as H1; simpl in H1; [|simpl; by rewrite H1].
    destruct (negb (ok res)); [simpl; by rewrite H1|].
    apply validSelection_fetchLibraries. by rewrite H1.
  - (* deleteLibrary *)
    unfold deleteLibrary. rewrite bind_outcome.
    destruct (fetch remote _ w) as [res w1|e w1] eqn:Hf;
      pose proof (keeps_world (fun s => s) _ _ _ (keeps_fetch remote _ _) Hf)
        as H1; simpl in H1; [|simpl; by rewrite H1].
    apply validSelection_fetchLibraries. by rewrite H1.
  - (* addDocument *)
    simpl. revert Hv. apply validSelection_same; [|done]. simpl.
    apply map_lib_id_same. intros lib.
    by destruct (String.eqb (lib_id lib) libId).
  - (* removeDocument *)
    simpl. revert Hv. apply validSelection_same; [|done]. simpl.
    apply map_lib_id_same. intros lib.
    by destruct (String.eqb (lib_id lib) libId).
  - apply validSelection_keeps; [| |done];
      by apply keeps_createConversation.
  - apply validSelection_keeps; [| |done];
      by apply keeps_addMessage.
  - by apply validSelection_setCurrentConversation.
  - apply validSelection_keeps; [| |done];
      by apply keeps_deleteConversation.
  - apply validSelection_keeps; [| |done];
      by apply keeps_updateConversationTitle.
  - apply validSelection_keeps; [| |done];
      by apply keeps_fetchAllConversations.
  - apply validSelection_keeps; [| |done];
      by apply keeps_fetchConversation.
Qed.

(** X3. The selection invariant is kept by every store action other than
    [setCurrentLibrary], in every outcome: from a store whose
    [currentLibrary] is null or has the id of a cached library, any
    sequence of actions, against any backend, returning or throwing,
    leads to such a store again. *)
Theorem steps_validSelection (acts : list Action) (w : World B) :
  validSelection (store w) ->
  validSelection (store (steps remote acts w)).
Proof.
  unfold steps. revert w.
  induction acts as [|a acts IH]; intros w Hv; simpl; [done|].
  apply IH. by apply step_validSelection.
Qed.

(** X4. Whenever [createLibrary], [deleteLibrary] or [initialize]
    returns, [currentLibrary] is null or has the id of a library of the
    list just fetched, whatever was selected before. *)
Theorem library_actions_establish_selection (w w' : World B) id name descr tags :
  createLibrary remote name descr tags w = Returned tt w'
  ∨ deleteLibrary remote id w = Returned tt w'
  ∨ initialize remote w = Returned tt w' ->
  validSelection (store w').
Proof.
  assert (Hfl : ∀ w0 w1, fetchLibraries remote w0 = Returned tt w1 ->
                         validSelection (store w1)).
  { intros w0 w1 H.
    destruct (fetchLibraries_cases w0)
      as [(e & w2 & H2 & _) | [(e & w2 & fetched & H2 & _)
                             | (w2 & fetched & convs & H2 & Hs)]];
      rewrite H2 in H; try discriminate H.
    injection H as ->. rewrite Hs.
    apply (validSelection_same (selectLibrary fetched (store w0)));
      [done | done | apply validSelection_selectLibrary]. }
  intros [H | [H | H]].
  - unfold createLibrary in H.
    apply bind_returned in H as (res & w1 & _ & H).
    destruct (negb (ok res)); [discriminate H|]. by eapply Hfl.
  - unfold deleteLibrary in H.
    apply bind_returned in H as (res & w1 & _ & H). by eapply Hfl.
  - unfold initialize in H.
    apply bind_returned in H as ([] & w1 & H1 & H).
    apply Hfl in H1.
    pose proof (validSelection_keeps (fetchAllConversations remote) w1
                  (keeps_fetchAllConversations remote libraries
                     (fun _ _ => eq_refl))
                  (keeps_fetchAllConversations remote currentLibrary
                     (fun _ _ => eq_refl)) H1) as Hv.
    by rewrite H in Hv.
Qed.

(** ** Refreshes that fail *)

(** X5. The conversation refresh is all or nothing: when
    [fetchAllConversations] throws, the store is exactly as it was;
    conversations of libraries fetched before the failing one are not
    committed. *)
Theorem fetchAllConversations_thrown (w w' : World B) e :
  fetchAllConversations remote w = Thrown e w' -> store w' = store w.
Proof.
  intros H.
  destruct (fetchAllConversations_cases w)
    as [(e1 & w1 & H1 & Hs) | (w1 & convs & H1 & _)];
    rewrite H1 in H; [|discriminate H].
  by injection H as _ <-.
Qed.


(** X7. A library refresh keeps the selected object when its id is still
    listed: [currentLibrary] stays the library value held before the
    refresh, not the freshly fetched value with that id, so the
    documents it carries can differ from those in [libraries]. *)
Theorem fetchLibraries_keeps_selected_object (w w' : World B) cur :
  fetchLibraries remote w = Returned tt w' ->
  currentLibrary (store w) = Some cur ->
  lib_id cur ∈ List.map lib_id (libraries (store w')) ->
  currentLibrary (store w') = Some cur.
Proof.
  intros H Hcur Hin.
  destruct (fetchLibraries_cases w)
    as [(e1 & w1 & H1 & _) | [(e1 & w1 & fetched & H1 & _)
                             | (w1 & fetched & convs & H1 & Hs)]];
    rewrite H1 in H; try discriminate H.
  injection H as <-. rewrite Hs in *. cbn [currentLibrary libraries] in *.
  rewrite selectLibrary_current, Hcur. by rewrite decide_True.
Qed.

(** ** Replacement, not merge *)

Lemma oblivious_ret {A} (a : A) : oblivious (@ret B A a).
Proof. intros w1 w2 Hb. simpl. auto. Qed.

Lemma oblivious_throw {A} e : oblivious (@throw B A e).
Proof. intros w1 w2 Hb. simpl. auto. Qed.

Lemma oblivious_fetch req : oblivious (fetch remote req).
Proof.
  intros w1 w2 Hb. unfold fetch. rewrite Hb.
  destruct (remote (backend w2) req) as [[|res] b']; simpl; auto.
Qed.

Lemma oblivious_bind {A C} (m : M B A) (k : A -> M B C) :
  oblivious m -> (∀ a, oblivious (k a)) -> oblivious (bind m k).
Proof.
  intros Hm Hk w1 w2 Hb. unfold bind. specialize (Hm w1 w2 Hb).
  destruct (m w1) as [a1 w1'|e1 w1'], (m w2) as [a2 w2'|e2 w2']; try done.
  destruct Hm as (-> & Hb' & Hs1 & Hs2).
  specialize (Hk a2 w1' w2' Hb').
  destruct (k a2 w1') as [c1 w1''|e1 w1''], (k a2 w2') as [c2 w2''|e2 w2''];
    try done; destruct Hk as (-> & Hb'' & Hs1' & Hs2');
    rewrite Hs1', Hs2'; auto.
Qed.

Lemma oblivious_json_documents res : oblivious (@json_documents B res).
Proof.
  unfold json_documents.
  destruct (body res); auto using @oblivious_ret, @oblivious_throw.
Qed.

Lemma oblivious_json_conversations res : oblivious (@json_conversations B res).
Proof.
  unfold json_conversations.
  destruct (body res); auto using @oblivious_ret, @oblivious_throw.
Qed.

Lemma oblivious_json_libraries res : oblivious (@json_libraries B res).
Proof.
  unfold json_libraries.
  destruct (body res); auto using @oblivious_ret, @oblivious_throw.
Qed.

Lemma oblivious_mapM {X Y} (f : X -> M B Y) xs :
  (∀ x, oblivious (f x)) -> oblivious (mapM f xs).
Proof.
  intros Hf. induction xs as [|x xs IH]; simpl.
  - apply oblivious_ret.
  - apply oblivious_bind; [apply Hf|]. intros y.
    apply oblivious_bind; [exact IH|]. intros ys. apply oblivious_ret.
Qed.

Lemma oblivious_loop libs acc :
  oblivious (fetchAllConversations_loop remote libs acc).
Proof.
  revert acc. induction libs as [|lib libs IH]; intros acc; simpl.
  - apply oblivious_ret.
  - apply oblivious_bind; [apply oblivious_fetch|]. intros res.
    destruct (ok res); [|apply IH].
    apply oblivious_bind; [apply oblivious_json_conversations|].
    intros convs. apply IH.
Qed.

Lemma oblivious_returned {A} (m : M B A) w1 w2 a w1' :
  oblivious m -> backend w2 = backend w1 -> m w1 = Returned a w1' ->
  ∃ w2', m w2 = Returned a w2' ∧ backend w2' = backend w1'
         ∧ store w2' = store w2 ∧ store w1' = store w1.
Proof.
  intros Hm Hb H. specialize (Hm w1 w2 (eq_sym Hb)). rewrite H in Hm.
  destruct (m w2) as [a2 w2'|]; [|done].
  destruct Hm as (-> & Hb' & Hs1 & Hs2). eauto.
Qed.

(** The refreshed conversation list depends on the cached libraries and
    on the backend only. *)
Lemma fetchAllConversations_replaces (wa wb wa' : World B) :
  libraries (store wb) = libraries (store wa) ->
  backend wb = backend wa ->
  fetchAllConversations remote wa = Returned tt wa' ->
  ∃ wb', fetchAllConversations remote wb = Returned tt wb'
         ∧ conversations (store wb') = conversations (store wa')
         ∧ libraries (store wb') = libraries (store wa')
         ∧ backend wb' = backend wa'.
Proof.
  intros Hl Hb H. unfold fetchAllConversations in *.
  apply bind_returned in H as (s & w1 & Hg & H).
  unfold get in Hg. injection Hg as <- <-.
  apply bind_returned in H as (convs & w2 & Hloop & H).
  unfold set in H. injection H as <-.
  destruct (oblivious_returned _ wa wb _ _ (oblivious_loop _ _) Hb Hloop)
    as (wb2 & Hloop' & Hb2 & Hsb & Hsa).
  rewrite bind_outcome. cbn [get]. rewrite bind_outcome, Hl, Hloop'.
  eexists. split; [reflexivity|]. simpl. by rewrite Hsb, Hsa, Hl.
Qed.

(** The same for the library refresh: its lists depend on the backend
    only. *)
Lemma fetchLibraries_same_lists (w1 w2 w1' : World B) :
  backend w2 = backend w1 ->
  fetchLibraries remote w1 = Returned tt w1' ->
  ∃ w2', fetchLibraries remote w2 = Returned tt w2'
         ∧ libraries (store w2') = libraries (store w1')
         ∧ conversations (store w2') = conversations (store w1')
         ∧ backend w2' = backend w1'.
Proof.
  intros Hb H. unfold fetchLibraries in *.
  apply bind_returned in H as (res & wa & Hf & H).
  apply bind_returned in H as (raw & wc & Hj & H).
  apply bind_returned in H as (fetched & wd & Hm & H).
  apply bind_returned in H as ([] & we & Hs & H).
  unfold set in Hs. injection Hs as <-.
  destruct (oblivious_returned _ w1 w2 _ _ (oblivious_fetch _) Hb Hf)
    as (wa2 & Hf2 & Hba & _ & _).
  destruct (oblivious_returned _ wa wa2 _ _ (oblivious_json_libraries _) Hba Hj)
    as (wc2 & Hj2 & Hbc & _ & _).
  match type of Hm with mapM ?f raw wc = _ =>
    assert (Ho : oblivious (mapM f raw));
    [ apply oblivious_mapM; intros lib;
      apply oblivious_bind; [apply oblivious_fetch|]; intros docRes;
      apply oblivious_bind; [apply oblivious_json_documents|]; intros docs;
      apply oblivious_ret
    | destruct (oblivious_returned _ wc wc2 _ _ Ho Hbc Hm)
        as (wd2 & Hm2 & Hbd & _ & _) ]
  end.
  rewrite (bind_run _ _ _ _ _ Hf2), (bind_run _ _ _ _ _ Hj2),
    (bind_run _ _ _ _ _ Hm2).
  rewrite bind_outcome. cbn [set].
  eapply fetchAllConversations_replaces in H as (w2' & H2 & Hc & Hl & Hb');
    [exists w2'; eauto | reflexivity | exact Hbd].
Qed.

(** X8. A library refresh is a replacement, not a merge: started from
    two stores against the same backend state, [fetchLibraries] returns
    in both or in neither, and when it returns the two stores hold the
    same library list and the same conversation list, whatever they held
    before. *)
Theorem fetchLibraries_replaces (w1 w2 w1' : World B) :
  backend w2 = backend w1 ->
  fetchLibraries remote w1 = Returned tt w1' ->
  ∃ w2', fetchLibraries remote w2 = Returned tt w2'
         ∧ libraries (store w2') = libraries (store w1')
         ∧ conversations (store w2') = conversations (store w1')
         ∧ backend w2' = backend w1'.
Proof.
  intros Hb H.
  destruct (fetchLibraries_same_lists w1 w2 w1' Hb H)
    as (w2' & Hrun & Hl & Hc & Hb').
  exists w2'. by repeat split.
Qed.

(** ** Deleting and renaming conversations *)

Lemma filter_not_id id (convs : list Conversation) :
  id ∉ List.map conv_id
         (List.filter (fun conv => negb (String.eqb (conv_id conv) id)) convs).
Proof.
  rewrite list_elem_of_In, in_map_iff. intros (c & Hid & Hin).
  apply filter_In in Hin as [_ Hne]. apply negb_true_iff in Hne.
  apply String.eqb_neq in Hne. congruence.
Qed.

(** X9. The local removal of [deleteConversation] is not rolled back:
    when the remote delete cannot be reached the action throws, having
    issued that one request, and the store has already lost every
    conversation with the id, and the current conversation if it had
    that id; the other conversations are all still there. *)
Theorem deleteConversation_rejected (w : World B) id b' :
  remote (backend w) (DELETE_conversation id) = (Rejected, b') ->
  ∃ w', deleteConversation remote id w = Thrown FetchFailed w'
    ∧ (id ∉ List.map conv_id (conversations (store w')))
    ∧ (∀ c, c ∈ conversations (store w) -> conv_id c ≠ id ->
            c ∈ conversations (store w'))
    ∧ (∀ c, currentConversation (store w') = Some c ->
            conv_id c ≠ id ∧ currentConversation (store w) = Some c)
    ∧ libraries (store w') = libraries (store w)
    ∧ calls w' = calls w ++ [DELETE_conversation id].
Proof.
  intros Hr. unfold deleteConversation.
  rewrite bind_outcome. cbn [set]. rewrite bind_outcome.
  erewrite fetch_rejected by (simpl; exact Hr).
  eexists. split; [reflexivity|]. simpl.
  split; [apply filter_not_id|]. split; [|split; [|done]].
  - intros c Hin Hne. apply list_elem_of_In, filter_In.
    split; [by apply list_elem_of_In|].
    apply negb_true_iff, String.eqb_neq, Hne.
  - intros c. destruct (currentConversation (store w)) as [cur|]; [|done].
    destruct (String.eqb (conv_id cur) id) eqn:E; [done|].
    intros [= ->]. split; [by apply String.eqb_neq|done].
Qed.

(** X10. [deleteConversation] does not look at the status of the remote
    delete.  Whatever the response, once the sub-fetches of the refresh
    report, the action returns and the conversation list is the one the
    backend lists, a conversation with the deleted id included if the
    backend still lists it; the current conversation is cleared only if
    it had the id. *)
Theorem deleteConversation_completes (w : World B) id res b1 outs b' :
  remote (backend w) (DELETE_conversation id) = (Resolved res, b1) ->
  answers remote b1 (libraries (store w)) outs b' ->
  ∃ w', deleteConversation remote id w = Returned tt w'
    ∧ conversations (store w') = List.concat (List.map contribution outs)
    ∧ currentConversation (store w')
      = match currentConversation (store w) with
        | Some cur => if String.eqb (conv_id cur) id then None else Some cur
        | None => None
        end
    ∧ calls w'
      = calls w ++ DELETE_conversation id
                   :: List.map (fun lib => GET_conversations (lib_id lib))
                               (libraries (store w)).
Proof.
  intros Hr Hans. unfold deleteConversation.
  rewrite bind_outcome. cbn [set]. rewrite bind_outcome.
  erewrite fetch_resolved by (simpl; exact Hr).
  unfold answered. cbn [store backend calls]. rewrite Hr. cbn [snd].
  unfold fetchAllConversations. rewrite bind_outcome. cbn [get].
  rewrite bind_outcome. cbn [store libraries].
  rewrite (loop_answers remote _ _ _ _ Hans). cbn [set].
  eexists. split; [reflexivity|]. simpl.
  split; [done|]. split; [done|]. by rewrite <- app_assoc.
Qed.

(** X11. [updateConversationTitle] never patches the title locally.  On
    a non-success response it throws with the store untouched; on
    success the conversation list becomes what the sub-fetches of the
    refresh list, and the current conversation is not updated. *)
Theorem updateConversationTitle_refreshes (w : World B) id newTitle res b1 :
  remote (backend w) (PATCH_conversation id newTitle) = (Resolved res, b1) ->
  (ok res = false ->
     ∃ w', updateConversationTitle remote id newTitle w
           = Thrown (Error "Failed to update conversation title") w'
       ∧ store w' = store w
       ∧ calls w' = calls w ++ [PATCH_conversation id newTitle])
  ∧ (ok res = true ->
       ∀ outs b', answers remote b1 (libraries (store w)) outs b' ->
         ∃ w', updateConversationTitle remote id newTitle w = Returned tt w'
           ∧ conversations (store w') = List.concat (List.map contribution outs)
           ∧ currentConversation (store w') = currentConversation (store w)).
Proof.
  intros Hr. unfold updateConversationTitle.
  rewrite (bind_run _ _ _ _ _ (fetch_resolved _ _ _ _ _ Hr)).
  split; intros Hok; rewrite Hok; cbn [negb].
  - eexists. split; [reflexivity|]. done.
  - intros outs b' Hans. unfold answered. rewrite Hr. cbn [snd].
    unfold fetchAllConversations. rewrite bind_outcome. cbn [get].
    rewrite bind_outcome. cbn [store].
    rewrite (loop_answers remote _ _ _ _ Hans). cbn [set].
    eexists. split; [reflexivity|]. done.
Qed.

(** ** Selecting a conversation *)

(** Looking up a library by id: the first match, or none. *)
Lemma find_library_cases libId (libs : list Library) :
  (∃ before l after,
      libs = before ++ l :: after
      ∧ lib_id l = libId
      ∧ (libId ∉ List.map lib_id before)
      ∧ List.find (fun lib => String.eqb (lib_id lib) libId) libs = Some l)
  ∨ ((libId ∉ List.map lib_id libs)
     ∧ List.find (fun lib => String.eqb (lib_id lib) libId) libs = None).
Proof.
  induction libs as [|x libs IH]; simpl.
  - right. split; [apply not_elem_of_nil|done].
  - destruct (String.eqb (lib_id x) libId) eqn:E.
    + apply String.eqb_eq in E. left. exists [], x, libs.
      split; [done|]. split; [done|]. split; [apply not_elem_of_nil|done].
    + apply String.eqb_neq in E.
      destruct IH as [(before & l & after & -> & Hl & Hb & Hf) | [Hn Hf]].
      * left. exists (x :: before), l, after.
        split; [done|]. split; [done|]. split; [|done].
        simpl. apply not_elem_of_cons. auto.
      * right. split; [|done]. apply not_elem_of_cons. auto.
Qed.

Lemma found_id_listed libId (before after : list Library) l :
  lib_id l = libId -> libId ∈ List.map lib_id (before ++ l :: after).
Proof.
  intros <-. rewrite map_app. simpl.
  apply elem_of_app. right. apply list_elem_of_here.
Qed.

(** X12. [setCurrentConversation] with a conversation makes it current
    without any request.  If a cached library has the conversation's
    [libraryId], the first such library becomes [currentLibrary];
    otherwise [currentLibrary] is left as it was, whatever library it
    names. *)
Theorem setCurrentConversation_reselects (w : World B) conv :
  ∃ w', setCurrentConversation (Some conv) w = Returned tt w'
    ∧ currentConversation (store w') = Some conv
    ∧ libraries (store w') = libraries (store w)
    ∧ conversations (store w') = conversations (store w)
    ∧ calls w' = calls w
    ∧ (libraryId conv ∈ List.map lib_id (libraries (store w)) ->
       ∃ before l after,
         libraries (store w) = before ++ l :: after
         ∧ lib_id l = libraryId conv
         ∧ (libraryId conv ∉ List.map lib_id before)
         ∧ currentLibrary (store w') = Some l)
    ∧ (libraryId conv ∉ List.map lib_id (libraries (store w)) ->
       currentLibrary (store w') = currentLibrary (store w)).
Proof.
  unfold setCurrentConversation. rewrite bind_outcome, bind_outcome.
  cbn [get].
  destruct (find_library_cases (libraryId conv) (libraries (store w)))
    as [(before & l & after & Hlibs & Hl & Hb & Hf) | [Hn Hf]];
    rewrite Hf; simpl; eexists; (split; [reflexivity|]); simpl;
    repeat (split; [done|]).
  - split; [|intros Hn; exfalso; apply Hn].
    + intros _. by exists before, l, after.
    + rewrite Hlibs. by apply found_id_listed.
  - done.
Qed.

(** X13. [handleSelectConversation] of the history view: when the fetch
    of the chosen conversation succeeds, the fetched entity is the
    current conversation afterwards, and if a library with its
    [libraryId] is cached, the current library has that id. *)
Theorem handleSelectConversation_selects (w : World B) chosen raw b' :
  remote (backend w) (GET_conversation (conv_id chosen))
  = (Resolved {| ok := true; body := JConversation raw |}, b') ->
  ∃ w', handleSelectConversation remote chosen w = Returned tt w'
    ∧ currentConversation (store w') = Some (normConversation raw)
    ∧ libraries (store w') = libraries (store w)
    ∧ (library_id raw ∈ List.map lib_id (libraries (store w)) ->
       ∃ l, currentLibrary (store w') = Some l ∧ lib_id l = library_id raw)
    ∧ calls w' = calls w ++ [GET_conversation (conv_id chosen)].
Proof.
  intros Hr. unfold handleSelectConversation.
  rewrite (bind_run _ _ _ _ _ (fetchConversation_ok _ _ _ _ _ Hr)).
  unfold setCurrentConversation. rewrite bind_outcome, bind_outcome.
  cbn [get store libraries normConversation libraryId].
  destruct (find_library_cases (library_id raw) (libraries (store w)))
    as [(before & l & after & Hlibs & Hl & Hb & Hf) | [Hn Hf]];
    rewrite Hf; simpl; eexists; (split; [reflexivity|]); simpl;
    repeat (split; [done|]).
  - split; [|done]. intros _. by exists l.
  - done.
Qed.

(** ** The requests of a start-up *)

Lemma loop_calls libs :
  ∀ acc (w : World B) convs w',
    fetchAllConversations_loop remote libs acc w = Returned convs w' ->
    calls w' = calls w ++ List.map (fun lib => GET_conversations (lib_id lib))
                                   libs.
Proof.
  induction libs as [|lib libs IH]; intros acc w convs w'; simpl.
  - unfold ret. intros [= _ <-]. by rewrite app_nil_r.
  - intros H. apply bind_returned in H as (res & w1 & Hf & H).
    apply fetch_returned in Hf as [_ ->].
    destruct (ok res).
    + apply bind_returned in H as (cs & w2 & Hj & H).
      unfold json_conversations in Hj.
      destruct (body res); try discriminate Hj.
      unfold ret in Hj. injection Hj as <- <-.
      apply IH in H. rewrite H. simpl. by rewrite <- app_assoc.
    + apply IH in H. rewrite H. simpl. by rewrite <- app_assoc.
Qed.

Lemma fetchAllConversations_calls (w w' : World B) :
  fetchAllConversations remote w = Returned tt w' ->
  calls w' = calls w ++ List.map (fun lib => GET_conversations (lib_id lib))
                                 (libraries (store w))
  ∧ libraries (store w') = libraries (store w).
Proof.
  intros H.
  pose proof (keeps_world libraries _ _ _
                (keeps_fetchAllConversations remote libraries
                   (fun _ _ => eq_refl)) H) as Hl.
  split; [|exact Hl].
  unfold fetchAllConversations in H.
  apply bind_returned in H as (s & w1 & Hg & H).
  unfold get in Hg. injection Hg as <- <-.
  apply bind_returned in H as (convs & w2 & Hloop & H).
  unfold set in H. injection H as <-. simpl.
  by apply loop_calls in Hloop.
Qed.

Lemma mapM_documents_calls libs :
  ∀ (w : World B) fetched w',
    mapM (fun lib =>
            docRes <- fetch remote (GET_documents (rl_id lib)) ;;
            docs <- json_documents docRes ;;
            ret (normLibrary lib docs)) libs w = Returned fetched w' ->
    calls w' = calls w ++ List.map (fun lib => GET_documents (rl_id lib)) libs.
Proof.
  induction libs as [|lib libs IH]; intros w fetched w'; simpl.
  - unfold ret. intros [= _ <-]. by rewrite app_nil_r.
  - intros H.
    apply bind_returned in H as (y & w1 & Hy & H).
    apply bind_returned in H as (ys & w2 & Hys & H).
    unfold ret in H. injection H as _ <-.
    apply bind_returned in Hy as (docRes & w3 & Hf & Hy).
    apply bind_returned in Hy as (docs & w4 & Hj & Hy).
    unfold ret in Hy. injection Hy as _ <-.
    apply fetch_returned in Hf as [_ ->].
    apply json_documents_returned in Hj as [_ ->].
    apply IH in Hys. rewrite Hys. simpl. by rewrite <- app_assoc.
Qed.

(** X14. A completed [initialize] has asked for the library list once,
    for the documents of each fetched library once, and for the
    conversations of each fetched library twice, in that order: the
    refresh that ends [fetchLibraries] is repeated by [initialize]. *)
Theorem initialize_requests (w w' : World B) :
  initialize remote w = Returned tt w' ->
  calls w'
  = calls w
    ++ [GET_libraries]
    ++ List.map (fun lib => GET_documents (lib_id lib)) (libraries (store w'))
    ++ List.map (fun lib => GET_conversations (lib_id lib))
                (libraries (store w'))
    ++ List.map (fun lib => GET_conversations (lib_id lib))
                (libraries (store w')).
Proof.
  intros H. unfold initialize in H.
  apply bind_returned in H as ([] & w1 & Hfl & H).
  apply fetchAllConversations_calls in H as [Hc2 Hl2].
  unfold fetchLibraries in Hfl.
  apply bind_returned in Hfl as (res & wa & Hf & Hfl).
  apply bind_returned in Hfl as (raw & wb & Hj & Hfl).
  apply bind_returned in Hfl as (fetched & wc & Hm & Hfl).
  apply bind_returned in Hfl as ([] & wd & Hs & Hfl).
  apply fetch_returned in Hf as [_ ->].
  apply json_libraries_returned in Hj as [_ ->].
  pose proof (mapM_documents_calls _ _ _ _ Hm) as Hcm.
  apply mapM_documents in Hm as [Hids _].
  unfold set in Hs. injection Hs as <-.
  apply fetchAllConversations_calls in Hfl as [Hc1 Hl1].
  cbn [store calls libraries selectLibrary] in Hc1, Hl1.
  rewrite Hc2, Hl2, Hc1, Hl1, Hcm. cbn [answered calls].
  rewrite <- (map_map lib_id GET_documents),
          <- (map_map rl_id GET_documents), Hids.
  by rewrite <- !app_assoc.
Qed.

End MachineProperties.

(** ** The further properties on concrete backends *)

Lemma steps_validSelection_witness :
  validSelection
    (store (steps tableBackend
              [DoInitialize; DoCreateConversation "L2" "Chat B";
               DoSetCurrentConversation
                 (Some (normConversation (rawConversation uuidB "L2" "Chat B")));
               DoDeleteLibrary "L1"; DoAddDocument "L2" (document "d1")]
              (world0 initialStore))).
Proof. apply (steps_validSelection tableBackend). exact I. Defined.

Lemma library_actions_establish_selection_witness :
  validSelection
    (store (world_of (createLibrary tableBackend "Physics" (Some "intro notes")
                        (Some "science, intro") (world0 twoLibraries)))).
Proof.
  apply (library_actions_establish_selection tableBackend
           (world0 twoLibraries) _ "L1" "Physics" (Some "intro notes")
           (Some "science, intro")).
  left. reflexivity.
Defined.

Lemma fetchAllConversations_thrown_witness :
  ∃ w', fetchAllConversations offlineBackend (world0 selectedConversation)
        = Thrown FetchFailed w'
        ∧ store w' = selectedConversation.
Proof.
  exists (world_of (fetchAllConversations offlineBackend
                      (world0 selectedConversation))).
  split; [reflexivity|].
  apply (fetchAllConversations_thrown offlineBackend
           (world0 selectedConversation) _ FetchFailed).
  reflexivity.
Defined.


Lemma fetchLibraries_keeps_selected_object_witness :
  currentLibrary
    (store (world_of (fetchLibraries tableBackend (world0 staleSelection))))
  = Some (library "L2" [document "d1"])
  ∧ libraries
      (store (world_of (fetchLibraries tableBackend (world0 staleSelection))))
    = [normLibrary (rawLibrary "L1") []; normLibrary (rawLibrary "L2") []].
Proof.
  split; [|reflexivity].
  apply (fetchLibraries_keeps_selected_object tableBackend
           (world0 staleSelection)); [reflexivity | reflexivity |].
  simpl. apply list_elem_of_further, list_elem_of_here.
Defined.

Lemma fetchLibraries_replaces_witness :
  ∃ w2', fetchLibraries tableBackend (world0 staleSelection) = Returned tt w2'
    ∧ libraries (store w2')
      = libraries
          (store (world_of (fetchLibraries tableBackend (world0 twoLibraries)))).
Proof.
  destruct (fetchLibraries_replaces tableBackend (world0 twoLibraries)
              (world0 staleSelection) _ eq_refl eq_refl)
    as (w2' & Hrun & Hl & _).
  exists w2'. by split.
Defined.

Lemma deleteConversation_rejected_witness :
  ∃ w', deleteConversation offlineBackend uuidB (world0 selectedConversation)
        = Thrown FetchFailed w'
        ∧ currentConversation (store w') = None
        ∧ (uuidB ∉ List.map conv_id (conversations (store w'))).
Proof.
  destruct (deleteConversation_rejected offlineBackend
              (world0 selectedConversation) uuidB tt eq_refl)
    as (w' & Hrun & Hgone & _).
  exists w'. split; [exact Hrun|]. split; [|exact Hgone].
  vm_compute in Hrun. by injection Hrun as <-.
Defined.

Lemma deleteConversation_completes_witness :
  ∃ w', deleteConversation tableBackend uuidB (world0 selectedConversation)
        = Returned tt w'
        ∧ conversations (store w')
          = [normConversation (rawConversation uuidA "L1" "Chat A")]
        ∧ currentConversation (store w') = None.
Proof.
  destruct (deleteConversation_completes tableBackend
              (world0 selectedConversation) uuidB _ tt
              [Succeeds [rawConversation uuidA "L1" "Chat A"]; Fails] tt
              eq_refl)
    as (w' & Hrun & Hconvs & Hcur & _).
  - simpl.
    eapply answers_cons; [reflexivity | reflexivity |].
    eapply answers_cons; [reflexivity | by eexists |].
    apply answers_nil.
  - exists w'. split; [exact Hrun|]. by split.
Defined.

Lemma updateConversationTitle_refreshes_witness :
  (∃ w', updateConversationTitle refusingBackend uuidB "Renamed"
           (world0 selectedConversation)
         = Thrown (Error "Failed to update conversation title") w'
         ∧ store w' = selectedConversation)
  ∧ (∃ w', updateConversationTitle tableBackend uuidB "Renamed"
             (world0 selectedConversation)
           = Returned tt w'
           ∧ currentConversation (store w')
             = currentConversation selectedConversation).
Proof.
  split.
  - destruct (updateConversationTitle_refreshes refusingBackend
                (world0 selectedConversation) uuidB "Renamed" _ tt eq_refl)
      as [Hfail _].
    destruct (Hfail eq_refl) as (w' & Hrun & Hst & _). eauto.
  - destruct (updateConversationTitle_refreshes tableBackend
                (world0 selectedConversation) uuidB "Renamed" _ tt eq_refl)
      as [_ Hok].
    destruct (Hok eq_refl
                [Succeeds [rawConversation uuidA "L1" "Chat A"]; Fails] tt)
      as (w' & Hrun & _ & Hcur).
    + simpl.
      eapply answers_cons; [reflexivity | reflexivity |].
      eapply answers_cons; [reflexivity | by eexists |].
      apply answers_nil.
    + eauto.
Defined.

Lemma handleSelectConversation_selects_witness :
  ∃ w', handleSelectConversation tableBackend
          (normConversation (rawConversation uuidB "L2" "Chat B"))
          (world0 twoConversations)
        = Returned tt w'
        ∧ currentConversation (store w')
          = Some (normConversation (rawConversation uuidB "L2" "Chat B"))
        ∧ ∃ l, currentLibrary (store w') = Some l ∧ lib_id l = "L2".
Proof.
  destruct (handleSelectConversation_selects tableBackend
              (world0 twoConversations)
              (normConversation (rawConversation uuidB "L2" "Chat B"))
              (rawConversation uuidB "L2" "Chat B") tt eq_refl)
    as (w' & Hrun & Hcur & _ & Hlib & _).
  exists w'. split; [exact Hrun|]. split; [exact Hcur|].
  apply Hlib. simpl. apply list_elem_of_further, list_elem_of_here.
Defined.

Lemma initialize_requests_witness :
  calls (world_of (initialize tableBackend (world0 initialStore)))
  = [GET_libraries; GET_documents "L1"; GET_documents "L2";
     GET_conversations "L1"; GET_conversations "L2";
     GET_conversations "L1"; GET_conversations "L2"].
Proof.
  etransitivity.
  - exact (initialize_requests tableBackend (world0 initialStore)
             (world_of (initialize tableBackend (world0 initialStore)))
             eq_refl).
  - reflexivity.
Defined.

(** * Further properties of the persistence options *)

Lemma filter_twice {A} (f : A -> bool) (l : list A) :
  List.filter f (List.filter f l) = List.filter f l.
Proof.
  induction l as [|x l IH]; simpl; [done|].
  destruct (f x) eqn:E; simpl; [|done]. by rewrite E, IH.
Qed.

(** X15. [migrate] is idempotent: a snapshot it has produced is left
    unchanged when it is migrated again, whatever the snapshot held
    under [conversations] (a list, nothing, or null). *)
Theorem migrate_idempotent
    (snapshot migrated : gmap string PValue) (v v' : Z) :
  migrate snapshot v = Migrated migrated ->
  migrate migrated v' = Migrated migrated.
Proof.
  unfold migrate.
  destruct (snapshot !! "conversations") as [[libs|convs|[lib|]|[conv|]]|] eqn:E;
    intros H; try discriminate H; injection H as <-;
    rewrite lookup_insert_eq, ?filter_twice; simpl;
    by rewrite insert_insert_eq.
Qed.

(** X16. Loading what was persisted: on the record [partialize] writes
    for a store, [migrate] never throws and gives the record
    [partialize] writes for the same store without the conversations
    whose id is not canonical; when every id is canonical the record
    comes back unchanged. *)
Theorem migrate_partialize (s : Store) (v : Z) :
  ∃ kept,
    migrate (partialize s) v
    = Migrated (partialize {| libraries := libraries s;
                              currentLibrary := currentLibrary s;
                              conversations := kept;
                              currentConversation := currentConversation s |})
    ∧ removes_exactly (fun c => canonical_uuid (conv_id c))
                      (conversations s) kept
    ∧ (Forall (fun c => canonical_uuid (conv_id c)) (conversations s) ->
       migrate (partialize s) v = Migrated (partialize s)).
Proof.
  exists (List.filter (fun conv => test uuidRegex (conv_id conv))
                      (conversations s)).
  assert (Hrun : migrate (partialize s) v
                 = Migrated (partialize
                      {| libraries := libraries s;
                         currentLibrary := currentLibrary s;
                         conversations :=
                           List.filter (fun conv => test uuidRegex (conv_id conv))
                                       (conversations s);
                         currentConversation := currentConversation s |})).
  { unfold migrate, partialize. simpl.
    rewrite lookup_insert_ne by done. rewrite lookup_insert_eq.
    f_equal. }
  split; [exact Hrun|]. split.
  - apply filter_removes_exactly. intros c. apply uuidRegex_canonical.
  - intros Hall. rewrite Hrun. do 2 f_equal.
    destruct s as [libs cur convs cc]. simpl in *. f_equal.
    induction Hall as [|c convs Hc _ IH]; simpl; [done|].
    apply uuidRegex_canonical in Hc. by rewrite Hc, IH.
Qed.

Lemma length_append (a b : string) :
  String.length (a ++ b)%string = (String.length a + String.length b)%nat.
Proof.
  induction a as [|c a IH]; [done|].
  rewrite append_cons. simpl. by rewrite IH.
Qed.

(** X17. Every id the regular expression of [migrate] accepts has
    exactly 36 characters; so each conversation that survives the
    migration also passes the filter of the history view. *)
Theorem accepted_ids_have_36_characters (convs : list Conversation) :
  (∀ s, test uuidRegex s = true -> String.length s = 36%nat)
  ∧ validConversations
      (List.filter (fun conv => test uuidRegex (conv_id conv)) convs)
    = List.filter (fun conv => test uuidRegex (conv_id conv)) convs.
Proof.
  assert (Hlen : ∀ s, test uuidRegex s = true -> String.length s = 36%nat).
  { intros s Hs. apply uuidRegex_canonical in Hs
      as (g1 & g2 & g3 & g4 & g5 & -> & [L1 _] & [L2 _] & [L3 _] & [L4 _]
          & [L5 _]).
    rewrite !length_append, L1, L2, L3, L4, L5. reflexivity. }
  split; [exact Hlen|].
  unfold validConversations.
  induction convs as [|c convs IH]; simpl; [done|].
  destruct (test uuidRegex (conv_id c)) eqn:E; [|exact IH].
  simpl. rewrite (Hlen _ E). simpl.
  destruct (conv_id c) eqn:Hid; [discriminate E|]. simpl. by rewrite IH.
Qed.

Lemma canonicalize_twice c : canonicalize (canonicalize c) = canonicalize c.
Proof.
  destruct c as [[] [] [] [] [] [] [] []]; vm_compute; reflexivity.
Qed.

Lemma class_matches_canonical rs c :
  class_matches true rs (canonicalize c) = class_matches true rs c.
Proof.
  unfold class_matches. induction rs as [|r rs IH]; simpl; [done|].
  rewrite IH. f_equal. induction (range_chars r) as [|ch chs IHc]; simpl; [done|].
  by rewrite IHc, canonicalize_twice.
Qed.

Lemma match_class_canonical rs n :
  ∀ s, match_class true rs n (canonicalizeString s)
       = canonicalizeString <$> match_class true rs n s.
Proof.
  induction n as [|n IH]; intros s; cbn [match_class]; [done|].
  destruct s as [|c s]; cbn [canonicalizeString]; [done|].
  rewrite class_matches_canonical.
  destruct (class_matches true rs c); [apply IH|done].
Qed.

Lemma match_terms_canonical ts :
  ∀ s, match_terms true ts (canonicalizeString s) = match_terms true ts s.
Proof.
  induction ts as [|[rs n|l] ts IH]; intros s; cbn [match_terms].
  - by destruct s.
  - rewrite match_class_canonical.
    destruct (match_class true rs n s); simpl; [apply IH|done].
  - destruct s as [|c s]; cbn [canonicalizeString]; [done|].
    unfold lit_matches. by rewrite canonicalize_twice, IH.
Qed.

(** X18. Matching with the [i] flag does not depend on the case of the
    ASCII letters of the input: a string and its upper-case form are
    accepted or rejected together, by the id pattern of [migrate] as by
    any pattern of this shape. *)
Theorem test_ignores_case (re : RegExp) (s : string) :
  ignoreCase re = true ->
  test re (canonicalizeString s) = test re s.
Proof.
  unfold test. intros ->. apply match_terms_canonical.
Qed.

Lemma migrate_idempotent_witness :
  migrate migratedSnapshot 1 = Migrated migratedSnapshot.
Proof.
  apply (migrate_idempotent staleSnapshot migratedSnapshot 0 1).
  reflexivity.
Defined.

Lemma test_ignores_case_witness :
  test uuidRegex (canonicalizeString uuidA) = true.
Proof.
  rewrite (test_ignores_case uuidRegex uuidA eq_refl). reflexivity.
Defined.

(** * Properties of the tag strings *)

Lemma append_assoc (a b c : string) :
  ((a ++ b) ++ c)%string = (a ++ (b ++ c))%string.
Proof.
  induction a as [|x a IH]; [done|]. by rewrite !append_cons, IH.
Qed.

Lemma comma_free_cons c s :
  comma_free (String c s) <-> c ≠ comma ∧ comma_free s.
Proof.
  unfold comma_free. simpl. split.
  - intros H. inversion H; subst. auto.
  - intros [Hc H]. by constructor.
Qed.

Lemma comma_free_append a b :
  comma_free a -> comma_free b -> comma_free (a ++ b)%string.
Proof.
  intros Ha Hb. induction a as [|c a IH]; [done|].
  rewrite append_cons. apply comma_free_cons in Ha as [Hc Ha].
  apply comma_free_cons. auto.
Qed.

Lemma split_comma_free s : comma_free s -> split_comma s = [s].
Proof.
  induction s as [|c s IH]; intros H; simpl; [done|].
  apply comma_free_cons in H as [Hc H].
  apply Ascii.eqb_neq in Hc. rewrite Hc, IH by done. done.
Qed.

Lemma split_comma_first t rest :
  comma_free t ->
  split_comma (t ++ String comma rest)%string = t :: split_comma rest.
Proof.
  induction t as [|c t IH]; intros H.
  - change ("" ++ String comma rest)%string with (String comma rest).
    reflexivity.
  - apply comma_free_cons in H as [Hc H]. rewrite append_cons. simpl.
    apply Ascii.eqb_neq in Hc. by rewrite Hc, IH.
Qed.

Lemma split_comma_pieces s : Forall comma_free (split_comma s).
Proof.
  induction s as [|c s IH]; simpl.
  - by repeat constructor.
  - destruct (Ascii.eqb c comma) eqn:E.
    + constructor; [constructor|done].
    + apply Ascii.eqb_neq in E.
      destruct (split_comma s) as [|piece pieces].
      * by repeat constructor.
      * apply Forall_cons in IH as [Hp Hps].
        constructor; [|done]. apply comma_free_cons. auto.
Qed.

(** What [split] makes of a joined list of comma-free pieces. *)
Lemma split_comma_join ts :
  ∀ p t, comma_free p -> Forall comma_free (t :: ts) ->
    split_comma (p ++ join ", " (t :: ts))%string
    = (p ++ t)%string :: List.map (String " "%char) ts.
Proof.
  induction ts as [|t2 ts IH]; intros p t Hp Hall.
  - apply Forall_cons in Hall as [Ht _]. simpl.
    by rewrite split_comma_free by by apply comma_free_append.
  - apply Forall_cons in Hall as [Ht Hall].
    change (join ", " (t :: t2 :: ts))
      with (t ++ String comma (" " ++ join ", " (t2 :: ts)))%string.
    rewrite <- append_assoc, split_comma_first by by apply comma_free_append.
    rewrite (IH " "%string t2); [done| |done].
    apply comma_free_cons. split; [done|constructor].
Qed.

Lemma trim_start_unspaced s :
  match s with String c _ => is_space c = false | EmptyString => True end ->
  trim_start s = s.
Proof. destruct s as [|c s]; simpl; [done|]. by intros ->. Qed.

Lemma trim_start_head s :
  match trim_start s with
  | String c _ => is_space c = false
  | EmptyString => True
  end.
Proof.
  induction s as [|c s IH]; simpl; [done|].
  destruct (is_space c) eqn:E; [exact IH|exact E].
Qed.

Lemma trim_end_head s :
  match s with String c _ => is_space c = false | EmptyString => True end ->
  match trim_end s with
  | String c _ => is_space c = false
  | EmptyString => True
  end.
Proof.
  destruct s as [|c s]; simpl; [done|]. intros Hc.
  destruct (trim_end s); [by rewrite Hc|done].
Qed.

Lemma trim_end_twice s : trim_end (trim_end s) = trim_end s.
Proof.
  induction s as [|c s IH]; simpl; [done|].
  destruct (trim_end s) as [|d k] eqn:E.
  - destruct (is_space c) eqn:Hc; simpl; [done|]. by rewrite Hc.
  - simpl in *. by rewrite IH.
Qed.

Lemma trim_twice s : trim (trim s) = trim s.
Proof.
  unfold trim.
  rewrite (trim_start_unspaced (trim_end (trim_start s))).
  - apply trim_end_twice.
  - apply trim_end_head, trim_start_head.
Qed.

Lemma comma_free_trim_start s : comma_free s -> comma_free (trim_start s).
Proof.
  induction s as [|c s IH]; simpl; [done|]. intros H.
  destruct (is_space c); [|done].
  apply comma_free_cons in H as [_ H]. auto.
Qed.

Lemma comma_free_trim_end s : comma_free s -> comma_free (trim_end s).
Proof.
  induction s as [|c s IH]; simpl; [done|]. intros H.
  apply comma_free_cons in H as [Hc H]. specialize (IH H).
  destruct (trim_end s).
  - destruct (is_space c); [constructor|]. apply comma_free_cons.
    split; [done|constructor].
  - by apply comma_free_cons.
Qed.

Lemma comma_free_trim s : comma_free s -> comma_free (trim s).
Proof. intros H. by apply comma_free_trim_end, comma_free_trim_start. Qed.

(** The tags read off a tag string are storable tags. *)
Lemma currentTags_storable tags : Forall storable_tag (currentTags tags).
Proof.
  unfold currentTags. destruct tags as [t|]; [|constructor].
  destruct (truthy t); [|constructor].
  pose proof (split_comma_pieces t) as Hp.
  induction Hp as [|piece pieces Hpiece _ IH]; simpl; [constructor|].
  destruct (truthy (trim piece)) eqn:E; [|exact IH].
  constructor; [|exact IH].
  split; [by apply comma_free_trim|]. split; [apply trim_twice|exact E].
Qed.

(** Reading back a joined list of storable tags. *)
Lemma currentTags_join ts :
  Forall storable_tag ts -> currentTags (Some (join ", " ts)) = ts.
Proof.
  intros Hall. destruct ts as [|t ts]; [done|].
  assert (Hfree : Forall comma_free (t :: ts)).
  { eapply Forall_impl; [exact Hall|]. by intros x [H _]. }
  assert (Hempty : comma_free EmptyString) by constructor.
  pose proof (split_comma_join ts EmptyString t Hempty Hfree) as Hs.
  change ("" ++ ?x)%string with x in Hs.
  unfold currentTags.
  assert (Htruthy : truthy (join ", " (t :: ts)) = true).
  { apply Forall_cons in Hall as [(_ & _ & Ht) _].
    destruct t as [|c t]; [discriminate Ht|].
    by destruct ts. }
  rewrite Htruthy, Hs. clear Hs Htruthy Hfree.
  apply Forall_cons in Hall as [(_ & Htrim & Ht) Hall]. simpl.
  rewrite Htrim, Ht. f_equal.
  induction Hall as [|x xs (_ & Hx & Hxt) _ IH]; simpl; [done|].
  change (trim (String " " x)) with (trim x).
  by rewrite Hx, Hxt, IH.
Qed.


(** X20. Removing a tag round-trips as well: the string [removeTag]
    sends reads back as the tags read before without the removed one,
    in the same order; the removed tag is never among them. *)
Theorem removeTag_reads_back (tags : option string) (tagToRemove : string) :
  currentTags (Some (removeTag_updatedTags tags tagToRemove))
  = List.filter (fun tag => negb (String.eqb tag tagToRemove)) (currentTags tags)
  ∧ (tagToRemove ∉ currentTags (Some (removeTag_updatedTags tags tagToRemove))).
Proof.
  assert (Hread :
    currentTags (Some (removeTag_updatedTags tags tagToRemove))
    = List.filter (fun tag => negb (String.eqb tag tagToRemove))
                  (currentTags tags)).
  { unfold removeTag_updatedTags. apply currentTags_join.
    pose proof (currentTags_storable tags) as Hall.
    induction Hall as [|x xs Hx _ IH]; simpl; [constructor|].
    destruct (negb (String.eqb x tagToRemove)); [by constructor|done]. }
  split; [exact Hread|]. rewrite Hread, list_elem_of_In, filter_In.
  intros [_ H]. by rewrite String.eqb_refl in H.
Qed.

(** X21. The tags of a fetched library: [normLibrary] always sets a tag
    list; it is empty exactly when the backend sent no tags or the empty
    string, and none of its tags has a comma in it or white space around
    it. *)
Theorem normLibrary_tags (lib : RawLibrary) (docs : list RawDocument) :
  ∃ tags,
    lib_tags (normLibrary lib docs) = Some tags
    ∧ Forall (fun t => comma_free t ∧ trim t = t) tags
    ∧ (tags = [] <-> rl_tags lib = None ∨ rl_tags lib = Some EmptyString).
Proof.
  unfold normLibrary. simpl. eexists. split; [reflexivity|].
  destruct (rl_tags lib) as [t|]; [|split; [constructor|by split; auto]].
  destruct t as [|c t]; [split; [constructor|by split; auto]|].
  cbn [truthy]. split.
  - pose proof (split_comma_pieces (String c t)) as Hp.
    induction Hp as [|piece pieces Hpiece _ IH]; simpl; constructor; [|done].
    split; [by apply comma_free_trim | apply trim_twice].
  - split.
    + intros H. apply (f_equal (@length string)) in H.
      rewrite length_map in H. exfalso. revert H. simpl.
      destruct (Ascii.eqb c comma); [done|].
      by destruct (split_comma t).
    + intros [H|H]; discriminate H.
Qed.

(** * Properties of the document selection *)

Lemma includes_spec x (l : list string) :
  existsb (String.eqb x) l = true <-> x ∈ l.
Proof.
  rewrite existsb_exists, list_elem_of_In. split.
  - intros (y & Hy & E). apply String.eqb_eq in E. by subst.
  - intros H. exists x. split; [done|]. apply String.eqb_refl.
Qed.

(** X22. [toggleDocument] flips the selection of the document it is
    given and of no other: afterwards that id is selected if and only
    if it was not, every other id is selected if and only if it was, and
    a selection without repetitions stays without repetitions. *)
Theorem toggleDocument_flips (selectedDocuments : list string) documentId :
  (documentId ∈ toggleDocument selectedDocuments documentId
   <-> documentId ∉ selectedDocuments)
  ∧ (∀ id, id ≠ documentId ->
       (id ∈ toggleDocument selectedDocuments documentId
        <-> id ∈ selectedDocuments))
  ∧ (NoDup selectedDocuments ->
     NoDup (toggleDocument selectedDocuments documentId)).
Proof.
  unfold toggleDocument.
  destruct (existsb (String.eqb documentId) selectedDocuments) eqn:E.
  - apply includes_spec in E. split; [|split].
    + rewrite list_elem_of_In, filter_In, String.eqb_refl. simpl.
      split; [by intros [_ H]|done].
    + intros id Hne. rewrite !list_elem_of_In, filter_In.
      apply String.eqb_neq in Hne. rewrite Hne. simpl. tauto.
    + intros Hnd. apply NoDup_ListNoDup, List.NoDup_filter.
      by apply NoDup_ListNoDup.
  - assert (Hn : documentId ∉ selectedDocuments).
    { intros H. apply includes_spec in H. congruence. }
    split; [|split].
    + rewrite elem_of_app, list_elem_of_singleton. tauto.
    + intros id Hne. rewrite elem_of_app, list_elem_of_singleton. tauto.
    + intros Hnd. apply NoDup_app. split; [done|].
      split; [|apply NoDup_singleton].
      intros x Hx Hx'. apply list_elem_of_singleton in Hx'. by subst.
Qed.

(** X23. After [selectAllDocuments], [getSelectedDocumentNames] lists
    the name of every document, in the order of the documents. *)
Theorem selectAll_names (documents : list PDFDocument) :
  getSelectedDocumentNames documents (selectAllDocuments documents)
  = List.map doc_name documents.
Proof.
  unfold getSelectedDocumentNames, selectAllDocuments. f_equal.
  assert (H : ∀ sel, (∀ d, d ∈ documents -> doc_id d ∈ sel) ->
            List.filter (fun doc => existsb (String.eqb (doc_id doc)) sel)
                        documents = documents).
  { intros sel. induction documents as [|d ds IH]; intros Hsel; simpl; [done|].
    assert (Hd : existsb (String.eqb (doc_id d)) sel = true).
    { apply includes_spec, Hsel, list_elem_of_here. }
    rewrite Hd, IH; [done|].
    intros x Hx. by apply Hsel, list_elem_of_further. }
  apply H. intros d Hd. apply list_elem_of_In, in_map. by apply list_elem_of_In.
Qed.


(** * Properties of the chunking *)

Module PdfProcessorFacts.
Import PdfProcessor.
Section ChunkingFacts.

Context {Char : Type}.
Variable isSpace : Char -> bool.
Variable isWhiteSpace : Char -> bool.
Variable exceeds70 : Z -> Z -> bool.

Lemma occurs_in_refl (s : list Char) : occurs_in s s.
Proof. exists [], []. by rewrite app_nil_r. Qed.

Lemma occurs_in_trans (a b c : list Char) :
  occurs_in a b -> occurs_in b c -> occurs_in a c.
Proof.
  intros (p1 & q1 & ->) (p2 & q2 & ->).
  exists (p2 ++ p1), (q1 ++ q2). by rewrite <- !app_assoc.
Qed.

Lemma occurs_in_len (a b : list Char) : occurs_in a b -> (len a <= len b)%Z.
Proof.
  intros (p & q & ->). unfold len. rewrite !length_app. lia.
Qed.

Lemma substring_occurs (s : list Char) a b : occurs_in (substring s a b) s.
Proof.
  unfold substring.
  set (lo := Nat.min (clamp s a) (clamp s b)).
  set (n := (Nat.max (clamp s a) (clamp s b) - lo)%nat).
  exists (firstn lo s), (skipn n (skipn lo s)).
  by rewrite firstn_skipn, firstn_skipn.
Qed.

Lemma substring_len (s : list Char) a b :
  (0 <= a)%Z -> (a <= b)%Z -> (len (substring s a b) <= b - a)%Z.
Proof.
  intros Ha Hab. unfold substring.
  assert (H1 : (clamp s a <= clamp s b)%nat) by (unfold clamp, len; lia).
  assert (H2 : (Z.of_nat (clamp s b) - Z.of_nat (clamp s a) <= b - a)%Z)
    by (unfold clamp, len; lia).
  rewrite Nat.min_l, Nat.max_r by done.
  unfold len. rewrite length_firstn. lia.
Qed.

Lemma substring_whole (s : list Char) : substring s 0 (len s) = s.
Proof.
  unfold substring, clamp, len.
  replace (Z.to_nat (Z.min (Z.max 0 0) (Z.of_nat (length s)))) with 0%nat by lia.
  replace (Z.to_nat (Z.min (Z.max (Z.of_nat (length s)) 0)
                           (Z.of_nat (length s))))
    with (length s) by lia.
  simpl. rewrite Nat.sub_0_r. apply firstn_all.
Qed.

Lemma trimStart_suffix (s : list Char) :
  ∃ p, s = p ++ trimStart isWhiteSpace s.
Proof.
  induction s as [|c s [p IH]]; simpl; [by exists []|].
  destruct (isWhiteSpace c); [|by exists []].
  exists (c :: p). simpl. by rewrite <- IH.
Qed.

Lemma trimChars_occurs (s : list Char) :
  occurs_in (trimChars isWhiteSpace s) s.
Proof.
  unfold trimChars.
  destruct (trimStart_suffix s) as [p Hp].
  destruct (trimStart_suffix (rev (trimStart isWhiteSpace s))) as [q Hq].
  exists p, (rev q).
  rewrite <- rev_app_distr, <- Hq, rev_involutive. exact Hp.
Qed.

(** What every pushed chunk satisfies. *)
Definition fits (text : list Char) (chunkSize : Z) (c : list Char) : Prop :=
  (len c <= chunkSize)%Z ∧ occurs_in c text.

Lemma loop_terminates (text : list Char) chunkSize overlap :
  (0 <= overlap < chunkSize)%Z ->
  ∀ fuel start acc,
    (0 <= start)%Z ->
    (Z.max (len text - start) 0 < Z.of_nat fuel)%Z ->
    Forall (fits text chunkSize) acc ->
    ∃ r, createChunks_loop isSpace isWhiteSpace exceeds70 fuel text
           chunkSize overlap start acc = Some r
         ∧ Forall (fits text chunkSize) r.
Proof.
  intros Hov. induction fuel as [|fuel IH]; intros start acc Hs Hf Hacc;
    [lia|].
  cbn [createChunks_loop].
  destruct (start <? len text)%Z eqn:Hlt; [|eauto].
  apply Z.ltb_lt in Hlt.
  set (endIndex := Z.min (start + chunkSize) (len text)).
  set (chunk0 := substring text start endIndex).
  match goal with |- context [trimChars isWhiteSpace ?c] => set (chunk := c) end.
  assert (H0 : (len chunk0 <= chunkSize)%Z ∧ occurs_in chunk0 text).
  { split; [|apply substring_occurs].
    assert (Hse : (start <= endIndex)%Z) by (unfold endIndex; lia).
    pose proof (substring_len text start endIndex Hs Hse) as H.
    fold chunk0 in H. unfold endIndex in H. lia. }
  assert (H1 : occurs_in chunk chunk0).
  { unfold chunk. destruct (endIndex <? len text)%Z; [|apply occurs_in_refl].
    destruct (exceeds70 _ _); [apply substring_occurs|apply occurs_in_refl]. }
  assert (Hfit : fits text chunkSize (trimChars isWhiteSpace chunk)).
  { pose proof (trimChars_occurs chunk) as H2.
    pose proof (occurs_in_trans _ _ _ H2 H1) as H3.
    split; [|by eapply occurs_in_trans; [exact H3|apply H0]].
    apply occurs_in_len in H3. lia. }
  assert (Hacc' : Forall (fits text chunkSize)
                    (acc ++ [trimChars isWhiteSpace chunk])).
  { apply Forall_app. split; [done|]. by constructor. }
  destruct (len text <=? endIndex)%Z eqn:Hbreak; [eauto|].
  apply Z.leb_gt in Hbreak.
  apply IH; [unfold endIndex in *; lia | unfold endIndex in *; lia | done].
Qed.

Lemma loop_more_fuel (text : list Char) chunkSize overlap :
  ∀ fuel start acc r,
    createChunks_loop isSpace isWhiteSpace exceeds70 fuel text
      chunkSize overlap start acc = Some r ->
    createChunks_loop isSpace isWhiteSpace exceeds70 (S fuel) text
      chunkSize overlap start acc = Some r.
Proof.
  induction fuel as [|fuel IH]; intros start acc r; [done|].
  intros H. cbn [createChunks_loop] in H.
  change (createChunks_loop isSpace isWhiteSpace exceeds70 (S (S fuel)) text
            chunkSize overlap start acc)
    with (if (start <? len text)%Z then
            let endIndex := Z.min (start + chunkSize) (len text) in
            let chunk := substring text start endIndex in
            let chunk :=
              if (endIndex <? len text)%Z then
                let lastSpaceIndex := lastIndexOf isSpace chunk in
                if exceeds70 lastSpaceIndex (len chunk)
                then substring chunk 0 lastSpaceIndex
                else chunk
              else chunk in
            let chunks := acc ++ [trimChars isWhiteSpace chunk] in
            if (len text <=? endIndex)%Z then Some chunks
            else createChunks_loop isSpace isWhiteSpace exceeds70 (S fuel) text
                   chunkSize overlap (endIndex - overlap)%Z chunks
          else Some acc).
  destruct (start <? len text)%Z; [|done]. cbv zeta in *.
  destruct (len text <=? Z.min (start + chunkSize) (len text))%Z; [done|].
  by apply IH.
Qed.

Lemma loop_enough_fuel (text : list Char) chunkSize overlap start acc r :
  ∀ fuel fuel',
    (fuel <= fuel')%nat ->
    createChunks_loop isSpace isWhiteSpace exceeds70 fuel text
      chunkSize overlap start acc = Some r ->
    createChunks_loop isSpace isWhiteSpace exceeds70 fuel' text
      chunkSize overlap start acc = Some r.
Proof.
  intros fuel fuel' Hle H. induction Hle as [|m _ IH]; [done|].
  by apply loop_more_fuel.
Qed.

(** X24. With an overlap that is not negative and smaller than the chunk
    size, [createChunks] terminates: the loop tests its condition at
    most once more than the text has code units, and more fuel does not
    change the result.  Every chunk returned is non-empty, at most
    [chunkSize] long, and a run of consecutive code units of the
    text. *)
Theorem createChunks_terminates (text : list Char) chunkSize overlap :
  (0 <= overlap < chunkSize)%Z ->
  ∃ chunks,
    (∀ fuel, (length text < fuel)%nat ->
       createChunks isSpace isWhiteSpace exceeds70 fuel text chunkSize overlap
       = Some chunks)
    ∧ Forall (fun c => c ≠ [] ∧ (len c <= chunkSize)%Z ∧ occurs_in c text)
             chunks.
Proof.
  intros Hov.
  destruct (loop_terminates text chunkSize overlap Hov (S (length text)) 0%Z [])
    as (r & Hr & Hfit); [lia | unfold len; lia | constructor |].
  exists (List.filter (fun chunk => (0 <? len chunk)%Z) r). split.
  - intros fuel Hfuel. unfold createChunks.
    by rewrite (loop_enough_fuel _ _ _ _ _ _ (S (length text)) fuel Hfuel Hr).
  - clear Hr. induction Hfit as [|c cs [Hc1 Hc2] _ IH]; simpl; [constructor|].
    destruct (0 <? len c)%Z eqn:E; [|exact IH].
    constructor; [|exact IH]. split; [|done].
    intros ->. discriminate E.
Qed.

(** X25. A text that fits in one chunk is not split: [createChunks]
    returns the trimmed text alone, or nothing when the text is empty or
    all white space, whatever the overlap. *)
Theorem createChunks_short_text (text : list Char) chunkSize overlap fuel :
  (len text <= chunkSize)%Z ->
  createChunks isSpace isWhiteSpace exceeds70 (S fuel) text chunkSize overlap
  = Some (match trimChars isWhiteSpace text with
          | [] => []
          | trimmed => [trimmed]
          end).
Proof.
  intros Hshort. unfold createChunks. cbn [createChunks_loop].
  destruct (0 <? len text)%Z eqn:Hlt.
  - apply Z.ltb_lt in Hlt.
    replace (Z.min (0 + chunkSize) (len text)) with (len text) by lia.
    rewrite substring_whole, Z.ltb_irrefl, Z.leb_refl. simpl.
    by destruct (trimChars isWhiteSpace text).
  - apply Z.ltb_ge in Hlt. destruct text; [done|].
    unfold len in Hlt. simpl in Hlt. lia.
Qed.

(** X26. With an overlap that is not smaller than the chunk size, on a
    non-empty text longer than one chunk, the loop of [createChunks]
    never ends: the start index never moves forward, and no amount of
    fuel gives a result. *)
Theorem createChunks_diverges (text : list Char) chunkSize overlap :
  (chunkSize <= overlap)%Z -> (chunkSize < len text)%Z -> text ≠ [] ->
  ∀ fuel,
    createChunks isSpace isWhiteSpace exceeds70 fuel text chunkSize overlap
    = None.
Proof.
  intros Hov Hlong Hne fuel.
  assert (Hpos : (0 < len text)%Z).
  { destruct text; [done|]. unfold len. simpl. lia. }
  assert (Hloop : ∀ start acc, (start <= 0)%Z ->
            createChunks_loop isSpace isWhiteSpace exceeds70 fuel text
              chunkSize overlap start acc = None).
  { induction fuel as [|fuel IH]; intros start acc Hs; [done|].
    cbn [createChunks_loop].
    replace (start <? len text)%Z with true by (symmetry; apply Z.ltb_lt; lia).
    replace (Z.min (start + chunkSize) (len text))
      with (start + chunkSize)%Z by lia.
    replace (len text <=? start + chunkSize)%Z
      with false by (symmetry; apply Z.leb_gt; lia).
    apply IH. lia. }
  unfold createChunks. by rewrite Hloop.
Qed.

End ChunkingFacts.

Lemma createChunks_terminates_witness :
  ∃ chunks,
    createChunks isSpaceAscii is_space exceeds70_exact 30
      (list_ascii_of_string "the quick brown fox jumps") 10 3
    = Some chunks
    ∧ Forall (fun c => (len c <= 10)%Z) chunks.
Proof.
  destruct (createChunks_terminates isSpaceAscii is_space exceeds70_exact
              (list_ascii_of_string "the quick brown fox jumps") 10 3)
    as (chunks & Hrun & Hall); [lia|].
  exists chunks. split; [apply Hrun; simpl; lia|].
  eapply Forall_impl; [exact Hall|]. by intros c (_ & H & _).
Defined.

Lemma createChunks_short_text_witness :
  createChunks isSpaceAscii is_space exceeds70_exact 1
    (list_ascii_of_string "  short page ") 1000 200
  = Some [list_ascii_of_string "short page"].
Proof.
  rewrite (createChunks_short_text isSpaceAscii is_space exceeds70_exact
             (list_ascii_of_string "  short page ") 1000 200 0);
    [reflexivity | unfold len; simpl; lia].
Defined.

Lemma createChunks_diverges_witness :
  createChunks isSpaceAscii is_space exceeds70_exact 1000
    (list_ascii_of_string "the quick brown fox jumps") 10 10
  = None.
Proof.
  apply (createChunks_diverges isSpaceAscii is_space exceeds70_exact
           (list_ascii_of_string "the quick brown fox jumps") 10 10);
    [lia | unfold len; simpl; lia | discriminate].
Defined.

End PdfProcessorFacts.

(** * Start-up and deletion of a library *)

Section StartUp.

Context {B : Type}.
Variable remote : B -> Request -> Reply * B.

Lemma keeps_backend_ret {A} (a : A) : keeps_backend (@ret B A a).
Proof. by intros w. Qed.

Lemma keeps_backend_throw {A} e : keeps_backend (@throw B A e).
Proof. by intros w. Qed.

Lemma keeps_backend_bind {A C} (m : M B A) (k : A -> M B C) :
  keeps_backend m -> (∀ a, keeps_backend (k a)) -> keeps_backend (bind m k).
Proof.
  intros Hm Hk w. unfold bind. specialize (Hm w).
  destruct (m w) as [a w1|e w1]; simpl in *; [|done].
  by rewrite Hk.
Qed.

Lemma keeps_backend_fetch req :
  quietReads remote -> isRead req = true -> keeps_backend (fetch remote req).
Proof.
  intros Hq Hr w. unfold fetch. specialize (Hq (backend w) req Hr).
  destruct (remote (backend w) req) as [[|res] b']; simpl in *; done.
Qed.

Lemma keeps_backend_mapM {X Y} (f : X -> M B Y) xs :
  (∀ x, keeps_backend (f x)) -> keeps_backend (mapM f xs).
Proof.
  intros Hf. induction xs as [|x xs IH]; simpl.
  - apply keeps_backend_ret.
  - apply keeps_backend_bind; [apply Hf|]. intros y.
    apply keeps_backend_bind; [exact IH|]. intros ys. apply keeps_backend_ret.
Qed.

Lemma keeps_backend_loop libs acc :
  quietReads remote ->
  keeps_backend (fetchAllConversations_loop remote libs acc).
Proof.
  intros Hq. revert acc. induction libs as [|lib libs IH]; intros acc; simpl.
  - apply keeps_backend_ret.
  - apply keeps_backend_bind; [by apply keeps_backend_fetch|]. intros res.
    destruct (ok res); [|apply IH].
    apply keeps_backend_bind; [|intros convs; apply IH].
    unfold json_conversations.
    destruct (body res); auto using @keeps_backend_ret, @keeps_backend_throw.
Qed.

Lemma keeps_backend_fetchAllConversations :
  quietReads remote -> keeps_backend (fetchAllConversations remote).
Proof.
  intros Hq. unfold fetchAllConversations.
  apply keeps_backend_bind; [by intros w|]. intros state.
  apply keeps_backend_bind; [by apply keeps_backend_loop|]. intros convs.
  by intros w.
Qed.

Lemma keeps_backend_fetchLibraries :
  quietReads remote -> keeps_backend (fetchLibraries remote).
Proof.
  intros Hq. unfold fetchLibraries.
  apply keeps_backend_bind; [by apply keeps_backend_fetch|]. intros res.
  apply keeps_backend_bind.
  { unfold json_libraries.
    destruct (body res); auto using @keeps_backend_ret, @keeps_backend_throw. }
  intros libs. apply keeps_backend_bind.
  { apply keeps_backend_mapM. intros lib.
    apply keeps_backend_bind; [by apply keeps_backend_fetch|]. intros docRes.
    apply keeps_backend_bind; [|intros; apply keeps_backend_ret].
    unfold json_documents.
    destruct (body docRes); auto using @keeps_backend_ret, @keeps_backend_throw. }
  intros fetched. apply keeps_backend_bind; [by intros w|]. intros _.
  by apply keeps_backend_fetchAllConversations.
Qed.

(** The store a completed library refresh leaves. *)
Lemma fetchLibraries_store (w w' : World B) :
  fetchLibraries remote w = Returned tt w' ->
  store w'
  = {| libraries := libraries (store w');
       currentLibrary :=
         currentLibrary (selectLibrary (libraries (store w')) (store w));
       conversations := conversations (store w');
       currentConversation := currentConversation (store w) |}.
Proof.
  intros H.
  destruct (fetchLibraries_cases remote w)
    as [(e1 & w1 & H1 & _) | [(e1 & w1 & fetched & H1 & _)
                             | (w1 & fetched & convs & H1 & Hs)]];
    rewrite H1 in H; try discriminate H.
  injection H as <-. by rewrite Hs.
Qed.

(** Repairing twice is repairing once. *)
Lemma selectLibrary_again fetched s s' :
  currentLibrary s' = currentLibrary (selectLibrary fetched s) ->
  currentLibrary (selectLibrary fetched s') = currentLibrary s'.
Proof.
  intros Hs'. rewrite selectLibrary_current, Hs', selectLibrary_current.
  destruct (currentLibrary s) as [cur|].
  - case_decide as Hin.
    + by rewrite decide_True.
    + destruct (head fetched) as [l|] eqn:Hh; [|done].
      rewrite decide_True; [done|]. by apply head_id_elem.
  - destruct (head fetched) as [l|] eqn:Hh; [|done].
    rewrite decide_True; [done|]. by apply head_id_elem.
Qed.

(** X27. Against a backend whose state no read changes, a completed
    [fetchLibraries] is idempotent: run again right after, it returns
    and leaves the whole store, selections included, as the first run
    left it. *)
Theorem fetchLibraries_idempotent (w w1 : World B) :
  quietReads remote ->
  fetchLibraries remote w = Returned tt w1 ->
  ∃ w2, fetchLibraries remote w1 = Returned tt w2 ∧ store w2 = store w1.
Proof.
  intros Hq H1.
  pose proof (keeps_backend_fetchLibraries Hq w) as Hb.
  rewrite H1 in Hb. simpl in Hb.
  destruct (fetchLibraries_same_lists remote w w1 w1 Hb H1)
    as (w2 & H2 & Hl & Hc & _).
  exists w2. split; [exact H2|].
  rewrite (fetchLibraries_store _ _ H2), Hl, Hc.
  rewrite (selectLibrary_again (libraries (store w1)) (store w) (store w1)).
  - by destruct (store w1).
  - by rewrite (fetchLibraries_store _ _ H1) at 1.
Qed.

(** X28. Deleting the selected library repairs the selection: when
    [deleteLibrary] returns and the refreshed list no longer holds the
    id of the library selected before (or none was selected),
    [currentLibrary] is the first library of the refreshed list, or null
    when that list is empty. *)
Theorem deleteLibrary_repairs_selection (w w' : World B) id :
  deleteLibrary remote id w = Returned tt w' ->
  (∀ p, currentLibrary (store w) = Some p ->
        lib_id p ∉ List.map lib_id (libraries (store w'))) ->
  currentLibrary (store w') = head (libraries (store w')).
Proof.
  intros H Habs. unfold deleteLibrary in H.
  apply bind_returned in H as (res & w1 & Hf & H).
  apply fetch_returned in Hf as [_ ->].
  rewrite (fetchLibraries_store _ _ H). cbn [currentLibrary libraries].
  rewrite selectLibrary_current. cbn [answered store].
  destruct (currentLibrary (store w)) as [cur|] eqn:Hcur; [|done].
  rewrite decide_False; [done|]. by apply Habs.
Qed.

End StartUp.

Lemma fetchLibraries_idempotent_witness :
  ∃ w2,
    fetchLibraries tableBackend
      (world_of (fetchLibraries tableBackend (world0 staleSelection)))
    = Returned tt w2
    ∧ store w2
      = store (world_of (fetchLibraries tableBackend (world0 staleSelection))).
Proof.
  apply (fetchLibraries_idempotent tableBackend (world0 staleSelection)).
  - intros [] req _. reflexivity.
  - reflexivity.
Defined.

Lemma deleteLibrary_repairs_selection_witness :
  currentLibrary
    (store (world_of (deleteLibrary tableBackend "gone" (world0 twoLibraries))))
  = Some (normLibrary (rawLibrary "L1") []).
Proof.
  etransitivity.
  - apply (deleteLibrary_repairs_selection tableBackend (world0 twoLibraries)
             (world_of (deleteLibrary tableBackend "gone" (world0 twoLibraries)))
             "gone" eq_refl).
    intros p [= <-]. rewrite list_elem_of_In. simpl.
    intros [H|[H|[]]]; discriminate H.
  - reflexivity.
Defined.
